(** * holography.quantum_artifacts: a shallow embedding and its properties

    The module [src/holography/quantum_artifacts.py] is a flat set of
    jitted JAX functions.  Each one is embedded below as a Rocq function
    with the source's name.

    Numbers.  Array entries and scalar arguments are finite numbers, taken
    exactly (reals, and pairs of reals for complex entries).  A value
    computed by a division or a logarithm can leave the finite numbers;
    such values live in [fval], which adds the IEEE-754 infinities and
    NaN to the reals and follows the IEEE rules for them (zero is
    unsigned).  Rounding is outside this development.  Overflow is inside
    it for [compute_entanglement_entropy], which is embedded twice: in
    exact arithmetic, and with the finite range of binary32.

    Arrays are one-dimensional: [list R], [list C] or [list fval].

    Library.  [jnp.fft.fft], [jnp.fft.ifft], [jnp.gradient], [jnp.abs],
    [jnp.sum], [jnp.log], [jax.grad] and [jax.random.normal] belong to JAX;
    they are modelled here from their documented behaviour. *)

From Stdlib Require Import String.
From Stdlib Require Import Reals Lra Lia List Bool Arith.
Import ListNotations.

Local Open Scope R_scope.

(** ** Outcomes of a call *)

(** The exceptions the library raises on the paths the module takes. *)
Inductive exn : Type :=
| TypeError
| ValueError.

Inductive result (A : Type) : Type :=
| Ok (a : A)
| Raise (e : exn).

Arguments Ok {A} a.
Arguments Raise {A} e.

Definition bind {A B : Type} (m : result A) (k : A -> result B) : result B :=
  match m with
  | Ok a => k a
  | Raise e => Raise e
  end.

Notation "x <- m ;; k" := (bind m (fun x => k))
  (at level 61, m at next level, right associativity).

(** ** Float values: the reals with the IEEE exceptional values *)

Inductive fval : Type :=
| Fin (r : R)
| PInf
| NInf
| NaN.

Definition finite (v : fval) : Prop :=
  match v with
  | Fin _ => True
  | _ => False
  end.

(** An infinity of the sign of [r]; NaN when [r] is zero. *)
Definition inf_of_sign (r : R) : fval :=
  if Rlt_dec 0 r then PInf
  else if Rlt_dec r 0 then NInf
  else NaN.

Definition fneg (a : fval) : fval :=
  match a with
  | Fin r => Fin (- r)
  | PInf => NInf
  | NInf => PInf
  | NaN => NaN
  end.

Definition fadd (a b : fval) : fval :=
  match a, b with
  | NaN, _ | _, NaN => NaN
  | Fin x, Fin y => Fin (x + y)
  | PInf, NInf | NInf, PInf => NaN
  | PInf, _ | _, PInf => PInf
  | NInf, _ | _, NInf => NInf
  end.

Definition fmul (a b : fval) : fval :=
  match a, b with
  | NaN, _ | _, NaN => NaN
  | Fin x, Fin y => Fin (x * y)
  | Fin x, PInf | PInf, Fin x => inf_of_sign x
  | Fin x, NInf | NInf, Fin x => inf_of_sign (- x)
  | PInf, PInf | NInf, NInf => PInf
  | PInf, NInf | NInf, PInf => NInf
  end.

(** IEEE division: a nonzero number over zero is an infinity, zero over
    zero and infinity over infinity are NaN. *)
Definition fdiv (a b : fval) : fval :=
  match a, b with
  | NaN, _ | _, NaN => NaN
  | Fin x, Fin y =>
      if Req_dec_T y 0 then inf_of_sign x else Fin (x / y)
  | Fin _, PInf | Fin _, NInf => Fin 0
  | PInf, Fin y => if Rlt_dec y 0 then NInf else PInf
  | NInf, Fin y => if Rlt_dec y 0 then PInf else NInf
  | PInf, PInf | PInf, NInf | NInf, PInf | NInf, NInf => NaN
  end.

(** [jnp.log]: minus infinity at zero, NaN below zero. *)
Definition flog (a : fval) : fval :=
  match a with
  | Fin x =>
      if Rlt_dec 0 x then Fin (ln x)
      else if Req_dec_T x 0 then NInf
      else NaN
  | PInf => PInf
  | NInf => NaN
  | NaN => NaN
  end.

(** [jnp.sum] of a float array. *)
Definition fsum (l : list fval) : fval := fold_right fadd (Fin 0) l.

(** [jnp.sum] of an array of finite numbers, exactly. *)
Definition Rsum (l : list R) : R := fold_right Rplus 0 l.

(** ** Complex numbers *)

Definition C : Type := (R * R)%type.

Definition Czero : C := (0, 0).
Definition RtoC (x : R) : C := (x, 0).
Definition Cadd (a b : C) : C := (fst a + fst b, snd a + snd b).
Definition Cmul (a b : C) : C :=
  (fst a * fst b - snd a * snd b, fst a * snd b + snd a * fst b).
Definition Cscale (c : R) (a : C) : C := (c * fst a, c * snd a).

(** [exp (i * theta)]. *)
Definition Cexp_i (theta : R) : C := (cos theta, sin theta).

(** [jnp.abs] on a complex entry: the modulus. *)
Definition Cabs (z : C) : R := sqrt (fst z * fst z + snd z * snd z).

(** The squared modulus, written without a square root. *)
Definition Cnorm2 (z : C) : R := fst z * fst z + snd z * snd z.

(** ** The discrete Fourier transform of [jnp.fft] *)

(** [sum_from j f l] is the sum of [f (j + i) (l_i)] over the entries of
    [l]. *)
Fixpoint sum_from (j : nat) (f : nat -> C -> C) (l : list C) : C :=
  match l with
  | [] => Czero
  | x :: t => Cadd (f j x) (sum_from (S j) f t)
  end.

(** The kernel [exp (sgn * 2 pi i * j * k / n)]. *)
Definition twiddle (sgn : R) (n j k : nat) : C :=
  Cexp_i (sgn * (2 * PI * INR j * INR k / INR n)).

(** Entry [k] of the unnormalised transform of [x]. *)
Definition dft_entry (sgn : R) (x : list C) (k : nat) : C :=
  sum_from 0 (fun j xj => Cmul xj (twiddle sgn (length x) j k)) x.

Definition dft (sgn : R) (x : list C) : list C :=
  map (dft_entry sgn x) (seq 0 (length x)).

(** [jnp.fft.fft]: forward transform, kernel [exp (- 2 pi i j k / n)]. *)
Definition fft (x : list C) : list C := dft (-1) x.

(** [jnp.fft.ifft]: inverse transform, kernel [exp (2 pi i j k / n)],
    scaled by [1 / n]. *)
Definition ifft (x : list C) : list C :=
  map (Cscale (/ INR (length x))) (dft 1 x).

(** [jnp.abs (a) ** 2], entry by entry. *)
Definition abs_sq (a : list C) : list R := map (fun z => Cabs z ^ 2) a.

(** ** compute_quantum_foam *)

(** [return jnp.abs(jnp.fft.ifft(phase_field)) ** 2] *)
Definition compute_quantum_foam (phase_field : list C) : list R :=
  abs_sq (ifft phase_field).

(** The squared modulus of the inverse Fourier transform, as the
    specification words it. *)
Definition foam_spec (phase_field : list C) : list R :=
  map Cnorm2 (ifft phase_field).

(** ** compute_entanglement_entropy *)

(** The guard added to every probability before the logarithm. *)
Definition log_guard : R := 1e-10.

(** [p / jnp.sum(p)] on an array of finite numbers: an IEEE division per
    entry. *)
Definition normalize (spectral_density : list R) : list fval :=
  map (fun s => fdiv (Fin s) (Fin (Rsum spectral_density))) spectral_density.

(** [spectral_density = jnp.abs(jnp.fft.fft(phase_field)) ** 2] *)
Definition power_spectrum (phase_field : list C) : list R :=
  abs_sq (fft phase_field).

(** [[
    spectral_density = jnp.abs(jnp.fft.fft(phase_field)) ** 2
    probability_distribution = spectral_density / jnp.sum(spectral_density)
    entropy = -jnp.sum(probability_distribution
                       * jnp.log(probability_distribution + 1e-10))
    return entropy
    ]] *)
Definition compute_entanglement_entropy (phase_field : list C) : fval :=
  let spectral_density := power_spectrum phase_field in
  let probability_distribution := normalize spectral_density in
  fneg (fsum (map (fun p => fmul p (flog (fadd p (Fin log_guard))))
                  probability_distribution)).

(** [-sum(p * log(p))] over the normalized power spectrum, evaluated as
    the array library evaluates that expression. *)
Definition entropy_spec (phase_field : list C) : fval :=
  let p := normalize (power_spectrum phase_field) in
  fneg (fsum (map (fun p => fmul p (flog p)) p)).

(** The normalized power spectrum as real numbers, meaningful when the
    total power is not zero. *)
Definition probabilities (phase_field : list C) : list R :=
  map (fun s => s / Rsum (power_spectrum phase_field))
      (power_spectrum phase_field).

(** One term of the Shannon entropy, with [0 * log 0 = 0]. *)
Definition plogp (p : R) : R :=
  if Req_dec_T p 0 then 0 else p * ln p.

Definition shannon (p : list R) : R := - Rsum (map plogp p).


(** ** compute_mqp *)

Definition zip_with {A B D : Type} (f : A -> B -> D)
    (a : list A) (b : list B) : list D :=
  map (fun p => f (fst p) (snd p)) (combine a b).

(** [jnp.gradient] of a one-dimensional array with unit spacing: one-sided
    differences at the two ends, half the centred difference inside, and
    a [ValueError] when the array has fewer than two entries. *)
Definition gradient (a : list R) : result (list R) :=
  if (length a <? 2)%nat then Raise ValueError
  else
    let upper_edge := [nth 1 a 0 - nth 0 a 0] in
    let inner :=
      zip_with (fun hi lo => (hi - lo) * 0.5)
               (skipn 2 a) (firstn (length a - 2) a) in
    let lower_edge :=
      [nth (length a - 1) a 0 - nth (length a - 2) a 0] in
    Ok (map (fun g => g / 1) (upper_edge ++ inner ++ lower_edge)).

(** [[
    laplacian = jnp.gradient(jnp.gradient(density_field))
    quantum_potential = - (hbar**2 / (2 * mass)) * (laplacian / density_field)
    return quantum_potential
    ]]
    The scalars are traced under [jit], so their division is an IEEE
    division too. *)
Definition compute_mqp (density_field : list R) (hbar mass : R)
    : result (list fval) :=
  g <- gradient density_field ;;
  laplacian <- gradient g ;;
  Ok (map (fmul (fneg (fdiv (Fin (hbar ^ 2)) (Fin (2 * mass)))))
          (zip_with fdiv (map Fin laplacian) (map Fin density_field))).


(** ** Calls into the JAX API with Python values *)

(** The Python values that reach [jax.grad], [jax.random.normal] and the
    arithmetic around them. *)
Inductive pyval : Type :=
| VArray (a : list fval)       (* a one-dimensional array *)
| VFloat (x : fval)            (* a scalar *)
| VShape (n : nat)             (* the shape tuple [(n,)] *)
| VKey (k : nat)               (* a PRNG key *)
| VFun (f : R -> R).           (* a callable *)

(** An operator on two arrays with NumPy broadcasting of a one-entry
    array; shapes that do not broadcast raise. *)
Definition broadcast (op : fval -> fval -> fval) (a b : list fval)
    : result (list fval) :=
  if (length a =? length b)%nat then Ok (zip_with op a b)
  else match a, b with
       | [x], _ => Ok (map (op x) b)
       | _, [y] => Ok (map (fun x => op x y) a)
       | _, _ => Raise ValueError
       end.

(** A binary arithmetic operator on Python values: defined on arrays and
    scalars, a [TypeError] on anything else. *)
Definition py_binop (op : fval -> fval -> fval) (u v : pyval)
    : result pyval :=
  match u, v with
  | VFloat x, VFloat y => Ok (VFloat (op x y))
  | VFloat x, VArray b => Ok (VArray (map (op x) b))
  | VArray a, VFloat y => Ok (VArray (map (fun x => op x y) a))
  | VArray a, VArray b => r <- broadcast op a b ;; Ok (VArray r)
  | _, _ => Raise TypeError
  end.

Definition py_mul : pyval -> pyval -> result pyval := py_binop fmul.
Definition py_add : pyval -> pyval -> result pyval := py_binop fadd.

(** The parameters of a Python function: names that must be bound, then
    names with a default. *)
Record signature : Type := {
  sig_required : list string;
  sig_optional : list string
}.

Definition mem (s : string) (l : list string) : bool :=
  existsb (String.eqb s) l.

Fixpoint lookup (s : string) (l : list (string * pyval)) : option pyval :=
  match l with
  | [] => None
  | (k, v) :: t => if String.eqb s k then Some v else lookup s t
  end.

(** Python's binding of the arguments of a call: positional arguments
    fill the parameters in order; a surplus positional argument, a keyword
    that names no parameter or one already filled, and a required
    parameter left unbound each raise [TypeError]. *)
Definition bind_args (sg : signature)
    (pos : list pyval) (kw : list (string * pyval))
    : result (list (string * pyval)) :=
  let params := (sig_required sg ++ sig_optional sg)%list in
  if (length params <? length pos)%nat then Raise TypeError
  else
    let by_pos := combine (firstn (length pos) params) pos in
    if existsb (fun kv => negb (mem (fst kv) params)
                          || mem (fst kv) (map fst by_pos)) kw
    then Raise TypeError
    else
      let bound := (by_pos ++ kw)%list in
      if forallb (fun r => mem r (map fst bound)) (sig_required sg)
      then Ok bound
      else Raise TypeError.

(** [jax.random.normal(key, shape=(), dtype=float)] *)
Definition normal_sig : signature :=
  {| sig_required := ["key"%string];
     sig_optional := ["shape"%string; "dtype"%string] |}.

Section Runtime.

(** What the module takes from outside: the generator behind
    [jax.random.normal] (samples as a function of key and count), the
    derivative operator behind [jax.grad], and the projection routine of
    [holography.fourier_projection], whose source is not part of this
    module. *)
Variable normal_sample : nat -> nat -> list R.
Variable autodiff : (R -> R) -> R -> R.
Variable params_t : Type.
Variable holographic_projection : R -> R -> params_t -> C.

Definition jax_random_normal
    (pos : list pyval) (kw : list (string * pyval)) : result pyval :=
  args <- bind_args normal_sig pos kw ;;
  match lookup "key" args, lookup "shape" args with
  | Some (VKey k), Some (VShape n) =>
      Ok (VArray (map Fin (normal_sample k n)))
  | Some (VKey k), None =>
      Ok (VFloat (Fin (hd 0 (normal_sample k 1))))
  | _, _ => Raise TypeError
  end.

(** [jax.grad(fun)]: the argument must be callable. *)
Definition jax_grad (f : pyval) : result pyval :=
  match f with
  | VFun g => Ok (VFun (autodiff g))
  | _ => Raise TypeError
  end.

(** ** compute_bohmian_velocity *)

(** [[
    gradient_phase = grad(phase_field)
    velocity = (hbar / mass) * gradient_phase
    return velocity
    ]] *)
Definition compute_bohmian_velocity (phase_field : list R) (mass hbar : R)
    : result pyval :=
  gradient_phase <- jax_grad (VArray (map Fin phase_field)) ;;
  velocity <- py_mul (VFloat (fdiv (Fin hbar) (Fin mass))) gradient_phase ;;
  Ok velocity.

(** ** holographic_decoherence *)

(** [[
    noise = jax.random.normal(size=phase_field.shape) * decoherence_rate
    return phase_field + noise
    ]] *)
Definition holographic_decoherence (phase_field : list R)
    (decoherence_rate : R) : result pyval :=
  drawn <- jax_random_normal []
             [("size"%string, VShape (length phase_field))] ;;
  noise <- py_mul drawn (VFloat (Fin decoherence_rate)) ;;
  py_add (VArray (map Fin phase_field)) noise.

(** ** wave_particle_duality *)

(** [[
    projection_wave = holographic_projection(x, t, params)
    return jnp.abs(projection_wave) ** 2
    ]] *)
Definition wave_particle_duality (x t : R) (params : params_t) : R :=
  Cabs (holographic_projection x t params) ^ 2.

End Runtime.

(** ** Sample inputs *)

(** The constant phase field [[1, 1]]: its power spectrum is [[4, 0]]. *)
Definition ones : list C := [RtoC 1; RtoC 1].

(** The phase field [[0, 0]], of zero total power. *)
Definition zeros : list C := [Czero; Czero].

(** A unit impulse followed by [n] zeros: its power spectrum is flat. *)
Definition delta (n : nat) : list C := RtoC 1 :: repeat Czero n.

(** ** Auxiliary notions for the further properties *)

(** The sum of a list of complex numbers. *)
Definition Csum (l : list C) : C := fold_right Cadd Czero l.

(** The complex conjugate. *)
Definition Cconj (z : C) : C := (fst z, - snd z).

(** The geometric sum [1 + e^(i theta) + ... + e^(i (n-1) theta)]. *)
Definition geo (theta : R) (n : nat) : C :=
  Csum (map (fun k => Cexp_i (INR k * theta)) (seq 0 n)).

(** The angle between the kernels of rows [j] and [m]. *)
Definition step_angle (sgn : R) (n j m : nat) : R :=
  sgn * (2 * PI * (INR m - INR j) / INR n).

(** A circular shift of an array by one place, and by [s] places
    ([jnp.roll (x, -s)]). *)
Definition rotate1 (x : list C) : list C :=
  match x with
  | [] => []
  | x0 :: t => t ++ [x0]
  end.

Fixpoint rotate (s : nat) (x : list C) : list C :=
  match s with
  | O => x
  | S s' => rotate1 (rotate s' x)
  end.


(** ** The finite range of binary32 *)

(** JAX computes in binary32 unless told otherwise.  The definitions
    above take every result as the exact real; the ones below add the
    finite range of the format: a result beyond the largest finite
    number is an infinity.  Rounding and gradual underflow stay
    outside. *)

(** The largest finite binary32 number, [(2 - 2^-23) * 2^127]. *)
Definition float_max : R := 340282346638528859811704183484516925440.

(** The smallest positive normal binary32 number, [2^-126]. *)
Definition float_min_normal : R := / 85070591730234615865843651857942052864.

(** A real result stored in binary32. *)
Definition to_float (x : R) : fval :=
  if Rlt_dec float_max (Rabs x) then inf_of_sign x else Fin x.

Definition ranged (v : fval) : fval :=
  match v with
  | Fin x => to_float x
  | _ => v
  end.

Definition fadd32 (a b : fval) : fval := ranged (fadd a b).
Definition fmul32 (a b : fval) : fval := ranged (fmul a b).
Definition fdiv32 (a b : fval) : fval := ranged (fdiv a b).
Definition flog32 (a : fval) : fval := ranged (flog a).
Definition fsum32 (l : list fval) : fval := fold_right fadd32 (Fin 0) l.

(** [jnp.abs(jnp.fft.fft(phase_field)) ** 2] in binary32.  A transform
    entry too large for the format has a square too large for it as
    well, so the range is checked on the square. *)
Definition power_spectrum_f32 (phase_field : list C) : list fval :=
  map (fun z => to_float (Cabs z ^ 2)) (fft phase_field).

(** [spectral_density / jnp.sum(spectral_density)] in binary32. *)
Definition normalize_f32 (spectral_density : list fval) : list fval :=
  map (fun s => fdiv32 s (fsum32 spectral_density)) spectral_density.

(** [compute_entanglement_entropy] with the range of binary32: the same
    four statements of the source, each result stored in the format. *)
Definition compute_entanglement_entropy_f32 (phase_field : list C) : fval :=
  let spectral_density := power_spectrum_f32 phase_field in
  let probability_distribution := normalize_f32 spectral_density in
  fneg (fsum32 (map (fun p => fmul32 p (flog32 (fadd32 p (Fin log_guard))))
                    probability_distribution)).

(** A phase field whose total spectral power lies well inside the normal
    range of binary32: no spectral power overflows, their sum neither
    overflows nor vanishes by underflow. *)
Definition well_scaled (phase_field : list C) : Prop :=
  INR (length phase_field) * (2 * float_min_normal)
  <= Rsum (power_spectrum phase_field) <= float_max / 2.

(** Values a power spectrum or its running sum can hold: a nonnegative
    number or plus infinity. *)
Definition power_value (v : fval) : Prop :=
  match v with
  | Fin x => 0 <= x
  | PInf => True
  | _ => False
  end.

(** * Properties *)

(** ** Float values *)

Ltac case_sign :=
  unfold inf_of_sign;
  repeat match goal with
         | |- context [Rlt_dec ?a ?b] => destruct (Rlt_dec a b)
         | |- context [Req_dec_T ?a ?b] => destruct (Req_dec_T a b)
         end;
  try lra; auto.

Lemma log_guard_pos : 0 < log_guard.
Proof. unfold log_guard. lra. Qed.

Lemma fdiv_fin (x y : R) : y <> 0 -> fdiv (Fin x) (Fin y) = Fin (x / y).
Proof. intros Hy. simpl. case_sign; contradiction. Qed.

Lemma fdiv_zero_zero : fdiv (Fin 0) (Fin 0) = NaN.
Proof. simpl. case_sign. Qed.

Lemma fdiv_by_zero_nonfinite (x : R) : ~ finite (fdiv (Fin x) (Fin 0)).
Proof. simpl. case_sign. Qed.

Lemma fmul_nonfinite (a b : fval) : ~ finite b -> ~ finite (fmul a b).
Proof. destruct a, b; simpl; auto; intros _; case_sign. Qed.

Lemma flog_pos (x : R) : 0 < x -> flog (Fin x) = Fin (ln x).
Proof. intros Hx. simpl. case_sign. Qed.



Lemma fsum_Fin (f : R -> R) (l : list R) :
  fsum (map (fun x => Fin (f x)) l) = Fin (Rsum (map f l)).
Proof.
  unfold fsum, Rsum. induction l as [|x t IH]; [reflexivity|].
  cbn [map fold_right]. now rewrite IH.
Qed.

(** ** Sums and lists *)

Lemma Rsum_nonneg (l : list R) : Forall (fun s => 0 <= s) l -> 0 <= Rsum l.
Proof. induction 1 as [|s t Hs _ IH]; simpl; lra. Qed.

Lemma Rsum_zero_all (l : list R) :
  Forall (fun s => 0 <= s) l -> Rsum l = 0 -> Forall (fun s => s = 0) l.
Proof.
  induction 1 as [|s t Hs Ht IH]; simpl; intros H0; constructor;
    pose proof (Rsum_nonneg t Ht); [|apply IH]; lra.
Qed.

Lemma Rsum_scale (k : R) (l : list R) : Rsum (map (Rmult k) l) = k * Rsum l.
Proof.
  unfold Rsum. induction l as [|x t IH]; cbn [map fold_right];
    [ring | rewrite IH; ring].
Qed.

Lemma Rsum_repeat (c : R) (m : nat) : Rsum (repeat c m) = INR m * c.
Proof.
  induction m as [|m IH].
  - simpl. ring.
  - rewrite S_INR. cbn [repeat Rsum fold_right]. fold (Rsum (repeat c m)).
    rewrite IH. ring.
Qed.

Lemma map_repeat_const {A B : Type} (f : A -> B) (a : A) (m : nat) :
  map f (repeat a m) = repeat (f a) m.
Proof. induction m as [|m IH]; simpl; [reflexivity | now rewrite IH]. Qed.

Lemma map_const_seq {A : Type} (a : A) (m : nat) :
  forall s, map (fun _ => a) (seq s m) = repeat a m.
Proof. induction m as [|m IH]; intros s; simpl; [reflexivity | now rewrite IH]. Qed.

Lemma length_zip_with {A B D : Type} (f : A -> B -> D)
    (a : list A) (b : list B) :
  length (zip_with f a b) = Nat.min (length a) (length b).
Proof. unfold zip_with. now rewrite length_map, length_combine. Qed.

Lemma nth_zip_with {A B D : Type} (f : A -> B -> D) (a : list A) (b : list B)
    (i : nat) (da : A) (db : B) (dd : D) :
  (i < length a)%nat -> (i < length b)%nat ->
  nth i (zip_with f a b) dd = f (nth i a da) (nth i b db).
Proof.
  revert b i. induction a as [|x a IH]; intros [|y b] [|i] Ha Hb;
    simpl in *; try lia; try reflexivity.
  apply IH; lia.
Qed.

(** ** Modulus and transform *)

Lemma Cabs_sq (z : C) : Cabs z ^ 2 = Cnorm2 z.
Proof.
  unfold Cabs, Cnorm2. destruct z as [a b]; simpl.
  rewrite Rmult_1_r. apply sqrt_sqrt. nra.
Qed.

Lemma Cnorm2_nonneg (z : C) : 0 <= Cnorm2 z.
Proof. unfold Cnorm2. destruct z as [a b]; simpl. nra. Qed.

Lemma Cnorm2_scale (c : R) (z : C) : Cnorm2 (Cscale c z) = c * c * Cnorm2 z.
Proof. unfold Cnorm2, Cscale. destruct z; simpl. ring. Qed.

Lemma abs_sq_norm2 (a : list C) : abs_sq a = map Cnorm2 a.
Proof. unfold abs_sq. apply map_ext. intros z. apply Cabs_sq. Qed.

Lemma abs_sq_nonneg (a : list C) : Forall (fun s => 0 <= s) (abs_sq a).
Proof.
  rewrite abs_sq_norm2. apply Forall_forall. intros s Hs.
  apply in_map_iff in Hs as (z & <- & _). apply Cnorm2_nonneg.
Qed.

Lemma twiddle_j0 (sgn : R) (n k : nat) : twiddle sgn n 0 k = (1, 0).
Proof.
  unfold twiddle, Cexp_i. simpl INR.
  replace (sgn * (2 * PI * 0 * INR k / INR n)) with 0 by (unfold Rdiv; ring).
  now rewrite cos_0, sin_0.
Qed.

Lemma twiddle_k0 (sgn : R) (n j : nat) : twiddle sgn n j 0 = (1, 0).
Proof.
  unfold twiddle, Cexp_i. simpl INR.
  replace (sgn * (2 * PI * INR j * 0 / INR n)) with 0 by (unfold Rdiv; ring).
  now rewrite cos_0, sin_0.
Qed.

Lemma twiddle_half : twiddle (-1) 2 1 1 = (-1, 0).
Proof.
  unfold twiddle, Cexp_i. simpl INR.
  replace (-1 * (2 * PI * 1 * 1 / (1 + 1))) with (- PI) by field.
  now rewrite cos_neg, sin_neg, cos_PI, sin_PI, Ropp_0.
Qed.

Lemma length_dft (sgn : R) (x : list C) : length (dft sgn x) = length x.
Proof. unfold dft. now rewrite length_map, length_seq. Qed.

(** The transform is linear in a real factor. *)
Lemma sum_from_scale (c : R) (n k : nat) (sgn : R) (x : list C) :
  forall j,
    sum_from j (fun j xj => Cmul xj (twiddle sgn n j k)) (map (Cscale c) x)
    = Cscale c (sum_from j (fun j xj => Cmul xj (twiddle sgn n j k)) x).
Proof.
  induction x as [|z t IH]; intros j; simpl.
  - unfold Cscale, Czero; simpl. f_equal; ring.
  - rewrite IH. unfold Cscale, Cadd, Cmul; simpl. f_equal; ring.
Qed.

Lemma dft_scale (c sgn : R) (x : list C) :
  dft sgn (map (Cscale c) x) = map (Cscale c) (dft sgn x).
Proof.
  unfold dft, dft_entry. rewrite length_map, map_map.
  apply map_ext. intros k. apply sum_from_scale.
Qed.

Lemma sum_from_zeros (f : nat -> C) (m : nat) :
  forall j, sum_from j (fun j xj => Cmul xj (f j)) (repeat Czero m) = Czero.
Proof.
  induction m as [|m IH]; intros j; simpl; [reflexivity|].
  rewrite IH. unfold Cadd, Cmul, Czero; simpl. f_equal; ring.
Qed.

Lemma dft_entry_delta (sgn : R) (n k : nat) :
  dft_entry sgn (delta n) k = (1, 0).
Proof.
  unfold dft_entry, delta. cbn [sum_from].
  rewrite sum_from_zeros, twiddle_j0.
  unfold Cadd, Cmul, RtoC, Czero; simpl. f_equal; ring.
Qed.

Lemma fft_ones : fft ones = [(2, 0); (0, 0)].
Proof.
  unfold ones, fft, dft, dft_entry.
  simpl length. simpl seq. simpl map. simpl sum_from.
  rewrite !twiddle_j0, twiddle_k0, twiddle_half.
  unfold Cadd, Cmul, RtoC, Czero; simpl.
  repeat f_equal; ring.
Qed.

(** The inverse transform of a pair of reals: half the sum and half the
    difference. *)
Example ifft_pair (a b : R) :
  ifft [RtoC a; RtoC b] = [((a + b) / 2, 0); ((a - b) / 2, 0)].
Proof.
  unfold ifft, dft, dft_entry.
  simpl length. simpl seq. simpl map. simpl sum_from.
  rewrite !twiddle_j0, twiddle_k0.
  assert (T : twiddle 1 2 1 1 = (-1, 0)).
  { unfold twiddle, Cexp_i. simpl INR.
    replace (1 * (2 * PI * 1 * 1 / (1 + 1))) with PI by field.
    now rewrite cos_PI, sin_PI. }
  rewrite T. unfold Cscale, Cadd, Cmul, RtoC, Czero.
  f_equal; [|f_equal]; apply injective_projections; simpl; field.
Qed.

(** ** compute_quantum_foam *)

(** C2: for every phase field, [compute_quantum_foam] is the squared
    modulus of the inverse Fourier transform, entry by entry: taking the
    modulus (a square root) and squaring it gives [re^2 + im^2]. *)
Theorem compute_quantum_foam_is_squared_modulus (phase_field : list C) :
  compute_quantum_foam phase_field = foam_spec phase_field.
Proof. unfold compute_quantum_foam, foam_spec. apply abs_sq_norm2. Qed.

(** C9: every entry of the array returned by [compute_quantum_foam] is a
    real number that is at least zero, for complex input and for real
    input (embedded with zero imaginary part) alike; the output has one
    entry per input entry. *)
Theorem compute_quantum_foam_nonneg :
  (forall phase_field : list C,
      Forall (fun v => 0 <= v) (compute_quantum_foam phase_field)
      /\ length (compute_quantum_foam phase_field) = length phase_field)
  /\ (forall real_field : list R,
         Forall (fun v => 0 <= v)
                (compute_quantum_foam (map RtoC real_field))).
Proof.
  split.
  - intros pf. split.
    + apply abs_sq_nonneg.
    + unfold compute_quantum_foam, abs_sq, ifft.
      now rewrite !length_map, length_dft.
  - intros a. apply abs_sq_nonneg.
Qed.

(** ** compute_entanglement_entropy *)

Lemma length_power_spectrum (pf : list C) :
  length (power_spectrum pf) = length pf.
Proof.
  unfold power_spectrum, abs_sq, fft. now rewrite length_map, length_dft.
Qed.

Lemma length_probabilities (pf : list C) :
  length (probabilities pf) = length pf.
Proof.
  unfold probabilities. now rewrite length_map, length_power_spectrum.
Qed.

Lemma power_total_pos (pf : list C) :
  Rsum (power_spectrum pf) <> 0 -> 0 < Rsum (power_spectrum pf).
Proof.
  intros H. pose proof (Rsum_nonneg _ (abs_sq_nonneg (fft pf))).
  unfold power_spectrum in *. lra.
Qed.

Lemma normalize_nonzero (sd : list R) :
  Rsum sd <> 0 -> normalize sd = map (fun s => Fin (s / Rsum sd)) sd.
Proof.
  intros HT. unfold normalize. apply map_ext. intros s. now apply fdiv_fin.
Qed.

(** With zero total power every entry is [0 / 0]. *)
Lemma normalize_zero_total (sd : list R) :
  Forall (fun s => 0 <= s) sd -> Rsum sd = 0 ->
  normalize sd = map (fun _ => NaN) sd.
Proof.
  intros Hnn H0. pose proof (Rsum_zero_all sd Hnn H0) as Hz.
  unfold normalize. rewrite H0. apply map_ext_in. intros s Hs.
  rewrite Forall_forall in Hz. rewrite (Hz s Hs). apply fdiv_zero_zero.
Qed.

Lemma normalize_fin_total (sd : list R) (r : R) :
  Forall (fun s => 0 <= s) sd -> In (Fin r) (normalize sd) -> Rsum sd <> 0.
Proof.
  intros Hnn Hin H0. rewrite (normalize_zero_total sd Hnn H0) in Hin.
  apply in_map_iff in Hin as (s & Hs & _). discriminate Hs.
Qed.

Lemma normalize_scale (k : R) (sd : list R) :
  k <> 0 -> Rsum sd <> 0 -> normalize (map (Rmult k) sd) = normalize sd.
Proof.
  intros Hk HT.
  rewrite (normalize_nonzero sd HT).
  rewrite normalize_nonzero.
  - rewrite Rsum_scale, map_map. apply map_ext. intros s. f_equal. now field.
  - rewrite Rsum_scale. now apply Rmult_integral_contrapositive_currified.
Qed.

Lemma normalize_probabilities (pf : list C) :
  Rsum (power_spectrum pf) <> 0 ->
  normalize (power_spectrum pf) = map Fin (probabilities pf).
Proof.
  intros HT. rewrite normalize_nonzero by assumption.
  unfold probabilities. now rewrite map_map.
Qed.

Lemma probabilities_nonneg (pf : list C) :
  Rsum (power_spectrum pf) <> 0 ->
  Forall (fun p => 0 <= p) (probabilities pf).
Proof.
  intros H. apply power_total_pos in H.
  unfold probabilities. apply Forall_forall. intros p Hp.
  apply in_map_iff in Hp as (s & <- & Hs).
  pose proof (abs_sq_nonneg (fft pf)) as Hall.
  rewrite Forall_forall in Hall. specialize (Hall s Hs).
  apply Rmult_le_pos; [assumption|]. left. now apply Rinv_0_lt_compat.
Qed.

Lemma power_spectrum_scale (c : R) (pf : list C) :
  power_spectrum (map (Cscale c) pf)
  = map (Rmult (c * c)) (power_spectrum pf).
Proof.
  unfold power_spectrum, fft. rewrite dft_scale, !abs_sq_norm2, !map_map.
  apply map_ext. intros z. apply Cnorm2_scale.
Qed.

Lemma guarded_term_fin (p : R) :
  0 <= p ->
  fmul (Fin p) (flog (fadd (Fin p) (Fin log_guard)))
  = Fin (p * ln (p + log_guard)).
Proof.
  intros Hp. pose proof log_guard_pos. simpl fadd.
  rewrite flog_pos by lra. reflexivity.
Qed.

Lemma spec_term_fin (p : R) :
  0 < p -> fmul (Fin p) (flog (Fin p)) = Fin (plogp p).
Proof.
  intros Hp. rewrite flog_pos by assumption. unfold plogp. case_sign.
Qed.

(** The value the code returns when the total power is not zero. *)
Lemma entropy_value (pf : list C) :
  Rsum (power_spectrum pf) <> 0 ->
  compute_entanglement_entropy pf
  = Fin (- Rsum (map (fun p => p * ln (p + log_guard)) (probabilities pf))).
Proof.
  intros HT. unfold compute_entanglement_entropy.
  rewrite normalize_probabilities, map_map by assumption.
  rewrite (map_ext_in _ (fun p => Fin (p * ln (p + log_guard)))).
  - now rewrite fsum_Fin.
  - intros p Hp. apply guarded_term_fin.
    pose proof (probabilities_nonneg pf HT) as Hall.
    rewrite Forall_forall in Hall. now apply Hall.
Qed.

(** The value of the unguarded expression when no spectrum entry is zero. *)
Lemma entropy_spec_value (pf : list C) :
  Forall (fun s => s <> 0) (power_spectrum pf) ->
  Rsum (power_spectrum pf) <> 0 ->
  entropy_spec pf = Fin (shannon (probabilities pf)).
Proof.
  intros Hnz HT. unfold entropy_spec, shannon.
  rewrite normalize_probabilities, map_map by assumption.
  rewrite (map_ext_in _ (fun p => Fin (plogp p))).
  - now rewrite fsum_Fin.
  - intros p Hp. apply spec_term_fin.
    unfold probabilities in Hp. apply in_map_iff in Hp as (s & <- & Hs).
    pose proof (abs_sq_nonneg (fft pf)) as Hall.
    rewrite Forall_forall in Hall, Hnz.
    specialize (Hall s Hs). specialize (Hnz s Hs).
    apply Rdiv_lt_0_compat; [lra | now apply power_total_pos].
Qed.

Lemma ln_one_plus_le (x : R) : 0 <= x -> ln (1 + x) <= x.
Proof.
  intros Hx. destruct (Req_dec_T x 0) as [->|Hne].
  - rewrite Rplus_0_r, ln_1. lra.
  - left. rewrite <- (ln_exp x) at 2. apply ln_increasing; [lra|].
    now apply exp_ineq1.
Qed.

(** The guard raises one term of the sum by at most the guard itself. *)
Lemma guard_term_bounds (p : R) :
  0 <= p ->
  0 <= p * ln (p + log_guard) - plogp p <= log_guard.
Proof.
  intros Hp. pose proof log_guard_pos as He. unfold plogp.
  destruct (Req_dec_T p 0) as [->|Hne].
  - rewrite Rmult_0_l. lra.
  - assert (Hpos : 0 < p) by lra.
    assert (Hq : 0 < log_guard / p) by now apply Rdiv_lt_0_compat.
    assert (E : ln (p + log_guard) = ln p + ln (1 + log_guard / p)).
    { rewrite <- ln_mult by lra. f_equal. field. lra. }
    rewrite E.
    assert (L0 : 0 < ln (1 + log_guard / p)).
    { rewrite <- ln_1. apply ln_increasing; lra. }
    assert (L1 : ln (1 + log_guard / p) <= log_guard / p).
    { apply ln_one_plus_le. lra. }
    assert (L2 : p * ln (1 + log_guard / p) <= p * (log_guard / p)).
    { apply Rmult_le_compat_l; lra. }
    replace (p * (log_guard / p)) with log_guard in L2 by (field; lra).
    split; nra.
Qed.

Lemma guard_sum_bounds (l : list R) :
  Forall (fun p => 0 <= p) l ->
  0 <= Rsum (map (fun p => p * ln (p + log_guard)) l) - Rsum (map plogp l)
    <= INR (length l) * log_guard.
Proof.
  induction 1 as [|p t Hp _ IH].
  - simpl. lra.
  - change (length (p :: t)) with (S (length t)). rewrite S_INR.
    cbn [map Rsum fold_right].
    fold (Rsum (map (fun p => p * ln (p + log_guard)) t)).
    fold (Rsum (map plogp t)).
    pose proof (guard_term_bounds p Hp). lra.
Qed.

Lemma power_spectrum_ones : power_spectrum ones = [4; 0].
Proof.
  unfold power_spectrum. rewrite fft_ones, abs_sq_norm2.
  unfold Cnorm2; simpl. repeat f_equal; ring.
Qed.

Lemma power_ones_nonzero : Rsum (power_spectrum ones) <> 0.
Proof. rewrite power_spectrum_ones. simpl. lra. Qed.





Lemma power_spectrum_delta (n : nat) :
  power_spectrum (delta n) = repeat 1 (S n).
Proof.
  unfold power_spectrum, fft, dft. rewrite abs_sq_norm2, map_map.
  assert (L : length (delta n) = S n).
  { unfold delta. simpl. now rewrite repeat_length. }
  rewrite L, <- (map_const_seq 1 (S n) 0).
  apply map_ext. intros k. rewrite dft_entry_delta.
  unfold Cnorm2; simpl. ring.
Qed.


(** X10, and the growth of the bound of C1 with the array: on a flat
    spectrum of [N] entries (a unit impulse) the code returns
    [ln N - ln (1 + N * 1e-10)] and the Shannon entropy is [ln N]. *)
Lemma flat_spectrum_entropy (n : nat) :
  compute_entanglement_entropy (delta n)
  = Fin (ln (INR (S n)) - ln (1 + INR (S n) * log_guard))
  /\ entropy_spec (delta n) = Fin (ln (INR (S n))).
Proof.
  assert (HN : 0 < INR (S n)) by (apply lt_0_INR; lia).
  pose proof log_guard_pos as He.
  assert (HT : Rsum (power_spectrum (delta n)) = INR (S n)).
  { rewrite power_spectrum_delta, Rsum_repeat. ring. }
  assert (HP : probabilities (delta n) = repeat (/ INR (S n)) (S n)).
  { unfold probabilities. rewrite HT, power_spectrum_delta, map_repeat_const.
    f_equal. field. lra. }
  assert (Hinv : 0 < / INR (S n)) by now apply Rinv_0_lt_compat.
  split.
  - rewrite entropy_value by (rewrite HT; lra).
    rewrite HP, map_repeat_const, Rsum_repeat. f_equal.
    replace (/ INR (S n) + log_guard)
      with ((1 + INR (S n) * log_guard) * / INR (S n)) by (field; lra).
    rewrite ln_mult, ln_Rinv by nra.
    field. lra.
  - rewrite entropy_spec_value.
    + unfold shannon. rewrite HP, map_repeat_const, Rsum_repeat. f_equal.
      unfold plogp. destruct (Req_dec_T (/ INR (S n)) 0); [lra|].
      rewrite ln_Rinv by assumption. field. lra.
    + rewrite power_spectrum_delta. apply Forall_forall. intros s Hs.
      apply repeat_spec in Hs. lra.
    + rewrite HT. lra.
Qed.

(** In exact arithmetic a real factor other than zero leaves the
    entropy unchanged: the spectrum gains the factor [c^2], which the
    normalization cancels. *)
Lemma entropy_scale_exact (c : R) (phase_field : list C) :
  c <> 0 ->
  Rsum (power_spectrum phase_field) <> 0 ->
  compute_entanglement_entropy (map (Cscale c) phase_field)
  = compute_entanglement_entropy phase_field.
Proof.
  intros Hc HT. unfold compute_entanglement_entropy.
  rewrite power_spectrum_scale, normalize_scale; [reflexivity| |assumption].
  now apply Rmult_integral_contrapositive_currified.
Qed.

(** ** compute_mqp *)

(** The gradient of [[1, 2, 4]] is [[1, 1.5, 2]]. *)
Example gradient_three : gradient [1; 2; 4] = Ok [1; 1.5; 2].
Proof. unfold gradient, zip_with. simpl. repeat f_equal; lra. Qed.

Lemma gradient_short (a : list R) :
  (length a < 2)%nat -> gradient a = Raise ValueError.
Proof.
  intros H. unfold gradient. apply Nat.ltb_lt in H. now rewrite H.
Qed.

Lemma gradient_ok (a : list R) :
  (2 <= length a)%nat ->
  exists g, gradient a = Ok g /\ length g = length a.
Proof.
  intros H. unfold gradient.
  destruct (Nat.ltb_spec (length a) 2) as [Hlt|_]; [lia|].
  eexists. split; [reflexivity|].
  rewrite length_map, !length_app, length_zip_with, length_skipn, length_firstn.
  simpl. lia.
Qed.

Lemma gradient_length (a g : list R) :
  gradient a = Ok g -> length g = length a /\ (2 <= length a)%nat.
Proof.
  intros H. destruct (Nat.ltb_spec (length a) 2) as [Hlt|Hge].
  - rewrite gradient_short in H by assumption. discriminate.
  - destruct (gradient_ok a Hge) as (g' & E & L). rewrite E in H.
    injection H as <-. now split.
Qed.

(** The second difference exists for every array of two entries or more
    and has the array's length. *)
Lemma laplacian_ok (d : list R) :
  (2 <= length d)%nat ->
  exists lap, (g <- gradient d ;; gradient g) = Ok lap /\ length lap = length d.
Proof.
  intros H. destruct (gradient_ok d H) as (g & E & L).
  assert (Hg : (2 <= length g)%nat) by lia.
  destruct (gradient_ok g Hg) as (lap & E' & L').
  exists lap. rewrite E. simpl. split; [assumption | lia].
Qed.

Lemma compute_mqp_unfold (d : list R) (hbar mass : R) :
  compute_mqp d hbar mass
  = (lap <- (g <- gradient d ;; gradient g) ;;
     Ok (map (fmul (fneg (fdiv (Fin (hbar ^ 2)) (Fin (2 * mass)))))
             (zip_with fdiv (map Fin lap) (map Fin d)))).
Proof. unfold compute_mqp. now destruct (gradient d). Qed.





(** C7 (as stated, refuted): the one-entry density field [[0]] has a zero
    entry, and [compute_mqp] does not reach the division on it: the
    library's gradient raises. *)
Lemma compute_mqp_short_counter :
  nth_error [0] 0 = Some 0
  /\ compute_mqp [0] 1 1 = Raise ValueError
  /\ ~ exists r, compute_mqp [0] 1 1 = Ok r.
Proof.
  split; [reflexivity|]. split; [reflexivity|].
  intros [r Hr]. discriminate Hr.
Qed.

(** C7 (amended): the division in [compute_mqp] is unguarded.  For every
    density field of two entries or more with a zero entry at index [i],
    the function performs the division and returns an array of the
    input's length whose entry [i] is not finite (an infinity or a NaN),
    handed back as it is.  On a shorter array [jnp.gradient] raises
    before the division, and that [ValueError] is the outcome of the
    call.  Nothing is caught or replaced on either path. *)
Theorem compute_mqp_zero_density (density_field : list R) (hbar mass : R)
    (i : nat) :
  nth_error density_field i = Some 0 ->
  ((length density_field < 2)%nat ->
   compute_mqp density_field hbar mass = Raise ValueError)
  /\ ((2 <= length density_field)%nat ->
      exists r,
        compute_mqp density_field hbar mass = Ok r
        /\ length r = length density_field
        /\ ~ finite (nth i r (Fin 0))).
Proof.
  intros Hz. split.
  - intros Hlt. unfold compute_mqp. now rewrite gradient_short.
  - intros Hlen. destruct (laplacian_ok _ Hlen) as (lap & El & Ll).
    eexists.
    rewrite compute_mqp_unfold, El. cbn [bind].
    split; [reflexivity|].
    assert (Hi : (i < length density_field)%nat).
    { apply nth_error_Some. congruence. }
    set (coef := fneg (fdiv (Fin (hbar ^ 2)) (Fin (2 * mass)))).
    assert (Lr : length (map (fmul coef)
                   (zip_with fdiv (map Fin lap) (map Fin density_field)))
                 = length density_field).
    { rewrite length_map, length_zip_with, !length_map. lia. }
    assert (E : nth i (map (fmul coef)
                   (zip_with fdiv (map Fin lap) (map Fin density_field)))
                  (Fin 0)
                = fmul coef (fdiv (Fin (nth i lap 0)) (Fin 0))).
    { rewrite (nth_indep _ (Fin 0) (fmul coef (Fin 0))) by lia.
      rewrite map_nth.
      rewrite (nth_zip_with fdiv _ _ i (Fin 0) (Fin 0))
        by (rewrite length_map; lia).
      rewrite !(map_nth Fin).
      now rewrite (nth_error_nth _ _ _ Hz). }
    split; [exact Lr|].
    rewrite E. apply fmul_nonfinite, fdiv_by_zero_nonfinite.
Qed.

Lemma compute_mqp_zero_density_witness :
  exists r,
    compute_mqp [0; 1] 1 1 = Ok r
    /\ length r = length [0; 1]
    /\ ~ finite (nth 0 r (Fin 0)).
Proof.
  destruct (compute_mqp_zero_density [0; 1] 1 1 0 eq_refl) as [_ H].
  apply H. simpl. lia.
Defined.

(** ** compute_bohmian_velocity and holographic_decoherence *)

Lemma bohmian_raises (autodiff : (R -> R) -> R -> R)
    (phase_field : list R) (mass hbar : R) :
  compute_bohmian_velocity autodiff phase_field mass hbar = Raise TypeError.
Proof. reflexivity. Qed.

(** [size] is no parameter of [jax.random.normal], and [key] is left
    unbound. *)
Lemma size_keyword_rejected (v : pyval) :
  bind_args normal_sig [] [("size"%string, v)] = Raise TypeError.
Proof. reflexivity. Qed.

Lemma decoherence_raises (normal_sample : nat -> nat -> list R)
    (phase_field : list R) (rate : R) :
  holographic_decoherence normal_sample phase_field rate = Raise TypeError.
Proof.
  unfold holographic_decoherence, jax_random_normal.
  now rewrite size_keyword_rejected.
Qed.

(** What the two statements after the draw would do with a noise array of
    the field's shape and a zero rate: give back the field. *)
Lemma zero_rate_noise (noise phase_field : list R) :
  length noise = length phase_field ->
  (scaled <- py_mul (VArray (map Fin noise)) (VFloat (Fin 0)) ;;
   py_add (VArray (map Fin phase_field)) scaled)
  = Ok (VArray (map Fin phase_field)).
Proof.
  intros Hlen. unfold py_mul, py_add, py_binop. cbn [bind].
  unfold broadcast. rewrite !length_map, <- Hlen, Nat.eqb_refl. cbn [bind].
  do 2 f_equal. revert noise Hlen.
  induction phase_field as [|p t IH]; intros [|x noise] Hlen;
    try discriminate; [reflexivity|].
  unfold zip_with in *. cbn [map combine fst snd fmul fadd].
  rewrite IH by (simpl in Hlen; lia).
  f_equal. f_equal. ring.
Qed.

(** C3: the code at the two functions the claim singles out.  Whatever
    the phase field and the scalars, [compute_bohmian_velocity] raises
    [TypeError] ([jax.grad] is handed an array, not a callable) and
    [holographic_decoherence] raises [TypeError] ([jax.random.normal] is
    called without its key and with a keyword it does not have): neither
    returns an array on any input. *)
Theorem bohmian_and_decoherence_raise
    (normal_sample : nat -> nat -> list R) (autodiff : (R -> R) -> R -> R) :
  (forall (phase_field : list R) (mass hbar : R),
      compute_bohmian_velocity autodiff phase_field mass hbar
      = Raise TypeError)
  /\ (forall (phase_field : list R) (decoherence_rate : R),
         holographic_decoherence normal_sample phase_field decoherence_rate
         = Raise TypeError).
Proof.
  split.
  - apply bohmian_raises.
  - apply decoherence_raises.
Qed.

(** C4: the code at a zero decoherence rate.  For every phase field the
    call raises [TypeError] before any noise is drawn, so it does not
    return the input. *)
Theorem decoherence_zero_rate_raises
    (normal_sample : nat -> nat -> list R) (phase_field : list R) :
  holographic_decoherence normal_sample phase_field 0 = Raise TypeError
  /\ holographic_decoherence normal_sample phase_field 0
     <> Ok (VArray (map Fin phase_field)).
Proof.
  rewrite decoherence_raises. split; [reflexivity | discriminate].
Qed.

(** * Further properties *)

(** ** Complex arithmetic and sums *)

Ltac Ceq :=
  repeat match goal with z : C |- _ => destruct z end;
  unfold Cadd, Cmul, Cscale, Cconj, Czero, RtoC; simpl;
  apply injective_projections; simpl; ring.

Lemma Cadd_0_r (a : C) : Cadd a Czero = a.
Proof. Ceq. Qed.
Lemma Cadd_0_l (a : C) : Cadd Czero a = a.
Proof. Ceq. Qed.
Lemma Cadd_assoc (a b c : C) : Cadd a (Cadd b c) = Cadd (Cadd a b) c.
Proof. Ceq. Qed.
Lemma Cadd_comm (a b : C) : Cadd a b = Cadd b a.
Proof. Ceq. Qed.
Lemma Cmul_comm (a b : C) : Cmul a b = Cmul b a.
Proof. Ceq. Qed.
Lemma Cmul_assoc (a b c : C) : Cmul a (Cmul b c) = Cmul (Cmul a b) c.
Proof. Ceq. Qed.
Lemma Cmul_0_r (a : C) : Cmul a Czero = Czero.
Proof. Ceq. Qed.
Lemma Cmul_0_l (a : C) : Cmul Czero a = Czero.
Proof. Ceq. Qed.
Lemma Cmul_1_r (a : C) : Cmul a (1, 0) = a.
Proof. Ceq. Qed.
Lemma Cmul_add_distr_l (a b c : C) : Cmul a (Cadd b c) = Cadd (Cmul a b) (Cmul a c).
Proof. Ceq. Qed.
Lemma Cmul_add_distr_r (a b c : C) : Cmul (Cadd a b) c = Cadd (Cmul a c) (Cmul b c).
Proof. Ceq. Qed.
Lemma Cmul_real_r (a : C) (r : R) : Cmul a (r, 0) = Cscale r a.
Proof. Ceq. Qed.

Lemma Cexp_i_add (a b : R) : Cmul (Cexp_i a) (Cexp_i b) = Cexp_i (a + b).
Proof.
  unfold Cexp_i, Cmul; simpl. rewrite cos_plus, sin_plus.
  apply injective_projections; simpl; ring.
Qed.

Lemma Cexp_i_0 : Cexp_i 0 = (1, 0).
Proof. unfold Cexp_i. now rewrite cos_0, sin_0. Qed.

Section Sums.
Variable A : Type.

Lemma Csum_zero (l : list A) : Csum (map (fun _ => Czero) l) = Czero.
Proof. induction l as [|x t IH]; simpl; [reflexivity|]. rewrite IH. apply Cadd_0_l. Qed.

Lemma Csum_add (f g : A -> C) (l : list A) :
  Csum (map (fun k => Cadd (f k) (g k)) l)
  = Cadd (Csum (map f l)) (Csum (map g l)).
Proof.
  induction l as [|x t IH]; simpl; [now rewrite Cadd_0_l|].
  rewrite IH. generalize (Csum (map f t)) (Csum (map g t)) (f x) (g x).
  intros. Ceq.
Qed.

Lemma Csum_mul_l (c : C) (f : A -> C) (l : list A) :
  Csum (map (fun k => Cmul c (f k)) l) = Cmul c (Csum (map f l)).
Proof.
  induction l as [|x t IH]; simpl; [now rewrite Cmul_0_r|].
  now rewrite IH, Cmul_add_distr_l.
Qed.

Lemma Csum_mul_r (c : C) (f : A -> C) (l : list A) :
  Csum (map (fun k => Cmul (f k) c) l) = Cmul (Csum (map f l)) c.
Proof.
  induction l as [|x t IH]; simpl; [now rewrite Cmul_0_l|].
  now rewrite IH, Cmul_add_distr_r.
Qed.

Variable B : Type.

Lemma Csum_swap (a : A -> B -> C) (l1 : list A) (l2 : list B) :
  Csum (map (fun k => Csum (map (fun j => a j k) l1)) l2)
  = Csum (map (fun j => Csum (map (fun k => a j k) l2)) l1).
Proof.
  induction l2 as [|k t IH]; simpl.
  - now rewrite Csum_zero.
  - rewrite IH. now rewrite <- Csum_add.
Qed.
End Sums.

Lemma sum_from_Csum (f : nat -> C -> C) (l : list C) :
  forall s,
    sum_from s f l
    = Csum (map (fun j => f j (nth (j - s) l Czero)) (seq s (length l))).
Proof.
  induction l as [|x t IH]; intros s; [reflexivity|].
  cbn [sum_from length seq map]. unfold Csum. cbn [fold_right].
  rewrite Nat.sub_diag. change (nth 0 (x :: t) Czero) with x. f_equal.
  rewrite IH. unfold Csum. f_equal. apply map_ext_in.
  intros j Hj. apply in_seq in Hj.
  replace (j - s)%nat with (S (j - S s)) by lia. reflexivity.
Qed.

Lemma Csum_single (g : nat -> C) (n m : nat) :
  (m < n)%nat ->
  Csum (map (fun j => if (j =? m)%nat then g j else Czero) (seq 0 n)) = g m.
Proof.
  intros Hm. induction n as [|n IH]; [lia|].
  rewrite seq_S, map_app. cbn [map]. unfold Csum in *. rewrite fold_right_app.
  cbn [fold_right plus].
  destruct (Nat.eq_dec m n) as [->|Hne].
  - rewrite Nat.eqb_refl, Cadd_0_r.
    assert (E : forall acc, fold_right Cadd acc
              (map (fun j => if (j =? n)%nat then g j else Czero) (seq 0 n)) = acc).
    { intros acc. rewrite (map_ext_in _ (fun _ => Czero)).
      - clear. induction (seq 0 n); simpl; [reflexivity|]. now rewrite IHl, Cadd_0_l.
      - intros j Hj. apply in_seq in Hj.
        destruct (Nat.eqb_spec j n); [lia|reflexivity]. }
    apply E.
  - destruct (Nat.eqb_spec n m); [lia|]. rewrite Cadd_0_r. apply IH. lia.
Qed.

(** ** Geometric sums and the orthogonality of the kernels *)

Lemma Csum_app (l1 l2 : list C) : Csum (l1 ++ l2) = Cadd (Csum l1) (Csum l2).
Proof.
  induction l1 as [|x t IH]; simpl; [now rewrite Cadd_0_l|].
  unfold Csum in *. cbn [fold_right]. now rewrite IH, Cadd_assoc.
Qed.

Lemma geo_shift (theta : R) (n : nat) :
  Cadd (Cexp_i (INR 0 * theta))
       (Csum (map (fun k => Cexp_i (INR (S k) * theta)) (seq 0 n)))
  = Cadd (geo theta n) (Cexp_i (INR n * theta)).
Proof.
  unfold geo. induction n as [|n IH].
  - simpl. now rewrite Cadd_0_r, Cadd_0_l.
  - rewrite !seq_S, !map_app, !Csum_app. cbn [map plus].
    rewrite Cadd_assoc, IH.
    unfold Csum at 2 4. cbn [fold_right]. now rewrite !Cadd_0_r.
Qed.

Lemma geo_fixed (theta : R) (n : nat) :
  Cexp_i (INR n * theta) = (1, 0) ->
  Cmul (Cexp_i theta) (geo theta n) = geo theta n.
Proof.
  intros Hn. pose proof (geo_shift theta n) as H. rewrite Hn in H.
  simpl INR in H at 1. rewrite Rmult_0_l, Cexp_i_0 in H.
  unfold geo at 1. rewrite <- Csum_mul_l.
  rewrite (map_ext _ (fun k => Cexp_i (INR (S k) * theta))).
  - revert H. generalize (Csum (map (fun k => Cexp_i (INR (S k) * theta)) (seq 0 n))).
    generalize (geo theta n). intros [a b] [c d]. unfold Cadd; simpl.
    intros H. injection H as H1 H2. apply injective_projections; simpl; lra.
  - intros k. rewrite Cexp_i_add. f_equal. rewrite S_INR. ring.
Qed.

Lemma geo_zero (theta : R) (n : nat) :
  Cexp_i (INR n * theta) = (1, 0) -> cos theta <> 1 -> geo theta n = Czero.
Proof.
  intros Hn Hc. pose proof (geo_fixed theta n Hn) as H.
  destruct (geo theta n) as [a b]. unfold Cmul, Cexp_i in H; simpl in H.
  injection H as H1 H2.
  pose proof (sin2_cos2 theta) as Hsc. unfold Rsqr in Hsc.
  set (c := cos theta) in *. set (s := sin theta) in *.
  assert (Hd : 0 < 2 - 2 * c).
  { assert (c <= 1) by (unfold c; apply COS_bound). lra. }
  assert (Ha : (2 - 2 * c) * a = 0) by nra.
  assert (Hb : (2 - 2 * c) * b = 0) by nra.
  unfold Czero. f_equal; nra.
Qed.

Lemma geo_ones (n : nat) : geo 0 n = (INR n, 0).
Proof.
  unfold geo. rewrite (map_ext _ (fun _ => (1, 0))).
  - generalize 0%nat. induction n as [|n IH]; intros s; [reflexivity|].
    cbn [seq map]. unfold Csum in *. cbn [fold_right]. rewrite IH, S_INR.
    unfold Cadd; simpl. f_equal; ring.
  - intros k. rewrite Rmult_0_r. apply Cexp_i_0.
Qed.

Lemma cos_2PI_INR (m : nat) : cos (2 * PI * INR m) = 1.
Proof.
  replace (2 * PI * INR m) with (0 + 2 * INR m * PI) by ring.
  rewrite cos_period. apply cos_0.
Qed.

Lemma sin_2PI_INR (m : nat) : sin (2 * PI * INR m) = 0.
Proof.
  replace (2 * PI * INR m) with (0 + 2 * INR m * PI) by ring.
  rewrite sin_period. apply sin_0.
Qed.

Lemma Cexp_i_turns (a b : nat) :
  Cexp_i (2 * PI * INR a - 2 * PI * INR b) = (1, 0).
Proof.
  unfold Cexp_i. rewrite cos_minus, sin_minus.
  rewrite !cos_2PI_INR, !sin_2PI_INR. f_equal; ring.
Qed.

Lemma cos_double_lt_1 (t : R) : 0 < t -> t < PI -> cos (2 * t) <> 1.
Proof.
  intros H0 H1. rewrite cos_2a_sin. pose proof (sin_gt_0 t H0 H1). nra.
Qed.

Lemma step_angle_turns (sgn : R) (n j m : nat) :
  (0 < n)%nat -> sgn = 1 \/ sgn = -1 ->
  Cexp_i (INR n * step_angle sgn n j m) = (1, 0).
Proof.
  intros Hn Hs. assert (Hn' : INR n <> 0) by (apply not_0_INR; lia).
  unfold step_angle. destruct Hs as [-> | ->].
  - replace (INR n * (1 * (2 * PI * (INR m - INR j) / INR n)))
      with (2 * PI * INR m - 2 * PI * INR j) by (field; assumption).
    apply Cexp_i_turns.
  - replace (INR n * (-1 * (2 * PI * (INR m - INR j) / INR n)))
      with (2 * PI * INR j - 2 * PI * INR m) by (field; assumption).
    apply Cexp_i_turns.
Qed.

Lemma step_angle_cos (sgn : R) (n j m : nat) :
  (j < n)%nat -> (m < n)%nat -> j <> m -> sgn = 1 \/ sgn = -1 ->
  cos (step_angle sgn n j m) <> 1.
Proof.
  intros Hj Hm Hne Hs.
  assert (Hn : 0 < INR n) by (apply lt_0_INR; lia).
  assert (E : cos (step_angle sgn n j m)
              = cos (2 * PI * (INR m - INR j) / INR n)).
  { unfold step_angle. destruct Hs as [-> | ->].
    - f_equal. ring.
    - replace (-1 * (2 * PI * (INR m - INR j) / INR n))
        with (- (2 * PI * (INR m - INR j) / INR n)) by ring.
      apply cos_neg. }
  rewrite E. pose proof PI_RGT_0 as Hpi.
  apply lt_INR in Hj. apply lt_INR in Hm.
  destruct (Nat.lt_total j m) as [Hlt | [Heq | Hgt]]; [|contradiction|].
  - apply lt_INR in Hlt.
    replace (2 * PI * (INR m - INR j) / INR n)
      with (2 * (PI * (INR m - INR j) / INR n)) by (field; lra).
    apply cos_double_lt_1.
    + apply Rdiv_lt_0_compat; [nra | assumption].
    + apply Rmult_lt_reg_r with (INR n); [assumption|].
      unfold Rdiv. rewrite Rmult_assoc, Rinv_l by lra.
      pose proof (pos_INR j). nra.
  - apply lt_INR in Hgt.
    replace (2 * PI * (INR m - INR j) / INR n)
      with (- (2 * (PI * (INR j - INR m) / INR n))) by (field; lra).
    rewrite cos_neg. apply cos_double_lt_1.
    + apply Rdiv_lt_0_compat; [nra | assumption].
    + apply Rmult_lt_reg_r with (INR n); [assumption|].
      unfold Rdiv. rewrite Rmult_assoc, Rinv_l by lra.
      pose proof (pos_INR m). nra.
Qed.

Lemma kernel_sum (sgn : R) (n j m : nat) :
  (j < n)%nat -> (m < n)%nat -> sgn = 1 \/ sgn = -1 ->
  geo (step_angle sgn n j m) n
  = if (j =? m)%nat then (INR n, 0) else Czero.
Proof.
  intros Hj Hm Hs. destruct (Nat.eqb_spec j m) as [->|Hne].
  - unfold step_angle. replace (sgn * (2 * PI * (INR m - INR m) / INR n)) with 0.
    + apply geo_ones.
    + unfold Rdiv. ring.
  - apply geo_zero.
    + apply step_angle_turns; [lia | assumption].
    + now apply step_angle_cos.
Qed.

Lemma twiddle_pair (sgn : R) (n j k m : nat) :
  Cmul (twiddle (- sgn) n j k) (twiddle sgn n k m)
  = Cexp_i (INR k * step_angle sgn n j m).
Proof.
  unfold twiddle, step_angle. rewrite Cexp_i_add. f_equal.
  unfold Rdiv. ring.
Qed.

(** ** Inversion of the transform *)

Lemma dft_entry_Csum (sgn : R) (x : list C) (k : nat) :
  dft_entry sgn x k
  = Csum (map (fun j => Cmul (nth j x Czero) (twiddle sgn (length x) j k))
              (seq 0 (length x))).
Proof.
  unfold dft_entry. rewrite sum_from_Csum. f_equal. apply map_ext.
  intros j. now rewrite Nat.sub_0_r.
Qed.

Lemma nth_dft (sgn : R) (x : list C) (k : nat) :
  (k < length x)%nat -> nth k (dft sgn x) Czero = dft_entry sgn x k.
Proof.
  intros Hk. unfold dft.
  rewrite (nth_indep _ Czero (dft_entry sgn x 0%nat))
    by now rewrite length_map, length_seq.
  rewrite map_nth, seq_nth by assumption. reflexivity.
Qed.

Lemma list_as_map_nth {A : Type} (d : A) (l : list A) :
  l = map (fun i => nth i l d) (seq 0 (length l)).
Proof.
  apply (nth_ext _ _ d d).
  - now rewrite length_map, length_seq.
  - intros i Hi.
    rewrite (nth_indep (map _ _) d (nth 0 l d))
      by now rewrite length_map, length_seq.
    rewrite (map_nth (fun i => nth i l d)), seq_nth by assumption. reflexivity.
Qed.

Lemma dft_inverse_entry (sgn : R) (x : list C) (m : nat) :
  sgn = 1 \/ sgn = -1 -> (m < length x)%nat ->
  dft_entry sgn (dft (- sgn) x) m = Cscale (INR (length x)) (nth m x Czero).
Proof.
  intros Hs Hm. rewrite dft_entry_Csum, length_dft.
  set (n := length x) in *.
  rewrite (map_ext_in _
    (fun k => Csum (map (fun j =>
        Cmul (nth j x Czero) (Cexp_i (INR k * step_angle sgn n j m)))
      (seq 0 n)))).
  2:{ intros k Hk. apply in_seq in Hk.
      rewrite nth_dft by (fold n; lia). rewrite dft_entry_Csum. fold n.
      rewrite <- Csum_mul_r. f_equal. apply map_ext. intros j.
      now rewrite <- Cmul_assoc, twiddle_pair. }
  rewrite Csum_swap.
  rewrite (map_ext_in _
    (fun j => if (j =? m)%nat then Cscale (INR n) (nth j x Czero) else Czero)).
  2:{ intros j Hj. apply in_seq in Hj.
      rewrite Csum_mul_l. fold (geo (step_angle sgn n j m) n).
      rewrite kernel_sum by (assumption || lia).
      destruct (j =? m)%nat; [apply Cmul_real_r | apply Cmul_0_r]. }
  now rewrite Csum_single.
Qed.

(** The transform with one sign undoes the transform with the other, up
    to the factor [n]. *)
Lemma dft_inverse (sgn : R) (x : list C) :
  sgn = 1 \/ sgn = -1 ->
  dft sgn (dft (- sgn) x) = map (Cscale (INR (length x))) x.
Proof.
  intros Hs.
  transitivity (map (fun m => Cscale (INR (length x)) (nth m x Czero))
                    (seq 0 (length x))).
  - unfold dft at 1. rewrite length_dft.
    apply map_ext_in. intros m Hm. apply in_seq in Hm.
    apply dft_inverse_entry; [assumption | lia].
  - rewrite <- (map_map (fun i => nth i x Czero)).
    now rewrite <- list_as_map_nth.
Qed.

Lemma Cscale_inv (r : R) (z : C) : r <> 0 -> Cscale (/ r) (Cscale r z) = z.
Proof.
  intros Hr. destruct z as [a b]. unfold Cscale; simpl.
  f_equal; field; assumption.
Qed.

(** [jnp.fft.ifft] inverts [jnp.fft.fft], and conversely. *)
Lemma ifft_fft (x : list C) : ifft (fft x) = x.
Proof.
  unfold ifft, fft. rewrite length_dft.
  replace (dft (-1) x) with (dft (- (1)) x) by (f_equal; ring).
  rewrite dft_inverse by (left; reflexivity).
  rewrite map_map. destruct x as [|z t]; [reflexivity|].
  rewrite (map_ext _ (fun w => w)); [apply map_id|]. intros w.
  apply Cscale_inv. apply not_0_INR. simpl. lia.
Qed.

Lemma fft_ifft (x : list C) : fft (ifft x) = x.
Proof.
  unfold ifft, fft. rewrite dft_scale.
  replace (dft 1 x) with (dft (- -1) x) by (f_equal; ring).
  rewrite dft_inverse by (right; reflexivity).
  rewrite map_map. destruct x as [|z t]; [reflexivity|].
  rewrite (map_ext _ (fun w => w)); [apply map_id|]. intros w.
  apply Cscale_inv. apply not_0_INR. simpl. lia.
Qed.

(** ** Parseval *)

Lemma Cconj_add (a b : C) : Cconj (Cadd a b) = Cadd (Cconj a) (Cconj b).
Proof. Ceq. Qed.

Lemma Cconj_mul (a b : C) : Cconj (Cmul a b) = Cmul (Cconj a) (Cconj b).
Proof. Ceq. Qed.

Lemma Cconj_invol (a : C) : Cconj (Cconj a) = a.
Proof. Ceq. Qed.

Lemma Cconj_scale (r : R) (a : C) : Cconj (Cscale r a) = Cscale r (Cconj a).
Proof. Ceq. Qed.

Lemma Cmul_conj (a : C) : Cmul a (Cconj a) = (Cnorm2 a, 0).
Proof. destruct a. unfold Cmul, Cconj, Cnorm2; simpl. f_equal; ring. Qed.

Lemma Cmul_scale_r (r : R) (a b : C) : Cmul a (Cscale r b) = Cscale r (Cmul a b).
Proof. Ceq. Qed.

Lemma Cconj_Csum {A : Type} (f : A -> C) (l : list A) :
  Cconj (Csum (map f l)) = Csum (map (fun k => Cconj (f k)) l).
Proof.
  induction l as [|x t IH]; simpl.
  - unfold Cconj, Czero; simpl. f_equal. ring.
  - unfold Csum in *. cbn [fold_right]. now rewrite Cconj_add, IH.
Qed.

Lemma Csum_scale {A : Type} (r : R) (f : A -> C) (l : list A) :
  Csum (map (fun k => Cscale r (f k)) l) = Cscale r (Csum (map f l)).
Proof.
  induction l as [|x t IH]; simpl.
  - unfold Cscale, Czero; simpl. f_equal; ring.
  - unfold Csum in *. cbn [fold_right]. rewrite IH.
    generalize (fold_right Cadd Czero (map f t)) (f x). intros. Ceq.
Qed.

Lemma Csum_real {A : Type} (f : A -> R) (l : list A) :
  Csum (map (fun k => (f k, 0)) l) = (Rsum (map f l), 0).
Proof.
  induction l as [|x t IH]; [reflexivity|].
  cbn [map]. unfold Csum, Rsum in *. cbn [fold_right]. rewrite IH.
  unfold Cadd; simpl. f_equal. ring.
Qed.

Lemma Cconj_twiddle (sgn : R) (n j k : nat) :
  Cconj (twiddle sgn n j k) = twiddle (- sgn) n k j.
Proof.
  unfold twiddle, Cexp_i, Cconj; simpl.
  replace (- sgn * (2 * PI * INR k * INR j / INR n))
    with (- (sgn * (2 * PI * INR j * INR k / INR n))) by (unfold Rdiv; ring).
  now rewrite cos_neg, sin_neg.
Qed.

Lemma sign_flip (sgn : R) : sgn = 1 \/ sgn = -1 -> - sgn = 1 \/ - sgn = -1.
Proof. intros [-> | ->]; [right | left]; ring. Qed.

Lemma dft_back_entry (sgn : R) (x : list C) (j : nat) :
  sgn = 1 \/ sgn = -1 -> (j < length x)%nat ->
  dft_entry (- sgn) (dft sgn x) j = Cscale (INR (length x)) (nth j x Czero).
Proof.
  intros Hs Hj.
  replace (dft sgn x) with (dft (- - sgn) x) by (f_equal; ring).
  apply dft_inverse_entry; [now apply sign_flip | assumption].
Qed.

Lemma parseval_complex (sgn : R) (x : list C) :
  sgn = 1 \/ sgn = -1 ->
  Csum (map (fun k => Cmul (dft_entry sgn x k) (Cconj (dft_entry sgn x k)))
            (seq 0 (length x)))
  = Cscale (INR (length x))
      (Csum (map (fun j => Cmul (nth j x Czero) (Cconj (nth j x Czero)))
                 (seq 0 (length x)))).
Proof.
  intros Hs.
  rewrite (map_ext _ (fun k => Csum (map (fun j =>
      Cmul (nth j x Czero)
           (Cmul (twiddle sgn (length x) j k) (Cconj (dft_entry sgn x k))))
      (seq 0 (length x))))).
  2:{ intros k. rewrite dft_entry_Csum at 1.
      rewrite <- Csum_mul_r. f_equal. apply map_ext. intros j.
      now rewrite Cmul_assoc. }
  rewrite Csum_swap. rewrite <- Csum_scale. f_equal.
  apply map_ext_in. intros j Hj. apply in_seq in Hj.
  rewrite Csum_mul_l, <- Cmul_scale_r, <- Cconj_scale. f_equal.
  rewrite <- (dft_back_entry sgn x j Hs) by lia.
  rewrite dft_entry_Csum, length_dft.
  rewrite Cconj_Csum. f_equal. apply map_ext_in. intros k Hk.
  apply in_seq in Hk. rewrite nth_dft by lia.
  rewrite Cconj_mul, Cconj_twiddle, Ropp_involutive. apply Cmul_comm.
Qed.

(** Parseval: the transform multiplies the energy by [n]. *)
Lemma parseval (sgn : R) (x : list C) :
  sgn = 1 \/ sgn = -1 ->
  Rsum (map Cnorm2 (dft sgn x)) = INR (length x) * Rsum (map Cnorm2 x).
Proof.
  intros Hs. pose proof (parseval_complex sgn x Hs) as H.
  rewrite (map_ext _ (fun k => (Cnorm2 (dft_entry sgn x k), 0))) in H
    by (intros; apply Cmul_conj).
  rewrite (map_ext (fun j => Cmul (nth j x Czero) (Cconj (nth j x Czero)))
                   (fun j => (Cnorm2 (nth j x Czero), 0))) in H
    by (intros; apply Cmul_conj).
  rewrite !Csum_real in H. unfold Cscale in H; simpl in H.
  injection H as H _.
  unfold dft. rewrite map_map, H. f_equal. f_equal.
  rewrite <- (map_map (fun j => nth j x Czero) Cnorm2).
  now rewrite <- list_as_map_nth.
Qed.

(** ** compute_entanglement_entropy, further *)

Lemma power_total_parseval (pf : list C) :
  Rsum (power_spectrum pf) = INR (length pf) * Rsum (map Cnorm2 pf).
Proof.
  unfold power_spectrum, fft. rewrite abs_sq_norm2.
  apply parseval. now right.
Qed.

Lemma Cnorm2_zero_iff (z : C) : Cnorm2 z = 0 <-> z = Czero.
Proof.
  destruct z as [a b]. unfold Cnorm2, Czero; simpl. split.
  - intros H. f_equal; nra.
  - intros H. injection H as -> ->. ring.
Qed.

Lemma energy_zero_iff (pf : list C) :
  Rsum (map Cnorm2 pf) = 0 <-> Forall (fun z => z = Czero) pf.
Proof.
  split.
  - intros H. apply Rsum_zero_all in H.
    + rewrite Forall_map in H. eapply Forall_impl; [|exact H].
      intros z Hz. now apply Cnorm2_zero_iff.
    + rewrite Forall_map. apply Forall_forall. intros z _. apply Cnorm2_nonneg.
  - induction 1 as [|z t Hz _ IH]; [reflexivity|].
    cbn [map Rsum fold_right]. fold (Rsum (map Cnorm2 t)).
    apply Cnorm2_zero_iff in Hz. lra.
Qed.

Lemma power_total_zero_iff (pf : list C) :
  Rsum (power_spectrum pf) = 0 <-> Forall (fun z => z = Czero) pf.
Proof.
  rewrite power_total_parseval, <- energy_zero_iff.
  destruct pf as [|z t].
  - simpl. split; intros; ring.
  - assert (Hn : 0 < INR (length (z :: t))) by (apply lt_0_INR; simpl; lia).
    split; intros H; nra.
Qed.

Lemma entropy_zero_total (pf : list C) :
  Rsum (power_spectrum pf) = 0 -> pf <> [] ->
  compute_entanglement_entropy pf = NaN.
Proof.
  intros H0 Hne. unfold compute_entanglement_entropy.
  rewrite normalize_zero_total; [|apply abs_sq_nonneg|assumption].
  rewrite map_map.
  assert (Hl : power_spectrum pf <> []).
  { intros E. apply Hne. apply length_zero_iff_nil.
    rewrite <- length_power_spectrum, E. reflexivity. }
  destruct (power_spectrum pf) as [|s t]; [congruence|]. reflexivity.
Qed.

Lemma Rsum_probabilities (pf : list C) :
  Rsum (power_spectrum pf) <> 0 -> Rsum (probabilities pf) = 1.
Proof.
  intros HT. unfold probabilities.
  rewrite (map_ext _ (Rmult (/ Rsum (power_spectrum pf))))
    by (intros; unfold Rdiv; ring).
  rewrite Rsum_scale. now field.
Qed.

Lemma Rsum_le_entry (l : list R) (p : R) :
  Forall (fun s => 0 <= s) l -> In p l -> p <= Rsum l.
Proof.
  induction 1 as [|s t Hs Ht IH]; intros Hin; [contradiction|].
  cbn [Rsum fold_right]. fold (Rsum t). pose proof (Rsum_nonneg t Ht).
  destruct Hin as [->|Hin]; [lra|]. specialize (IH Hin). lra.
Qed.

Lemma ln_mono_le (x y : R) : 0 < x -> x <= y -> ln x <= ln y.
Proof.
  intros Hx [Hlt | ->]; [left; now apply ln_increasing | lra].
Qed.

Lemma ln_le_minus_1 (y : R) : 0 < y -> ln y <= y - 1.
Proof.
  intros Hy. rewrite <- (ln_exp (y - 1)). apply ln_mono_le; [assumption|].
  pose proof (exp_ineq1_le (y - 1)). lra.
Qed.

(** One term of the Shannon sum against the uniform distribution. *)
Lemma plogp_uniform_bound (N p : R) :
  0 < N -> 0 <= p -> - plogp p - p * ln N <= / N - p.
Proof.
  intros HN Hp. unfold plogp. destruct (Req_dec_T p 0) as [->|Hne].
  - assert (0 < / N) by now apply Rinv_0_lt_compat. lra.
  - assert (Hpos : 0 < p) by lra.
    assert (Hy : 0 < / (N * p)) by (apply Rinv_0_lt_compat; nra).
    pose proof (ln_le_minus_1 _ Hy) as L.
    rewrite ln_Rinv, ln_mult in L by nra.
    assert (E : p * (/ (N * p) - 1) = / N - p) by (field; lra).
    assert (p * (- (ln N + ln p)) <= p * (/ (N * p) - 1))
      by (apply Rmult_le_compat_l; lra).
    lra.
Qed.

Lemma shannon_sum_bound (N : R) (l : list R) :
  0 < N -> Forall (fun p => 0 <= p) l ->
  - Rsum (map plogp l) - Rsum l * ln N <= INR (length l) * / N - Rsum l.
Proof.
  intros HN. induction 1 as [|p t Hp _ IH].
  - simpl. lra.
  - change (length (p :: t)) with (S (length t)). rewrite S_INR.
    cbn [map Rsum fold_right]. fold (Rsum (map plogp t)). fold (Rsum t).
    pose proof (plogp_uniform_bound N p HN Hp). lra.
Qed.

Lemma guarded_sum_upper (l : list R) :
  Forall (fun p => 0 <= p <= 1) l ->
  Rsum (map (fun p => p * ln (p + log_guard)) l)
  <= Rsum l * ln (1 + log_guard).
Proof.
  pose proof log_guard_pos as He.
  induction 1 as [|p t [Hp0 Hp1] _ IH].
  - simpl. lra.
  - cbn [map Rsum fold_right].
    fold (Rsum (map (fun p => p * ln (p + log_guard)) t)). fold (Rsum t).
    assert (ln (p + log_guard) <= ln (1 + log_guard))
      by (apply ln_mono_le; lra).
    assert (p * ln (p + log_guard) <= p * ln (1 + log_guard))
      by (apply Rmult_le_compat_l; assumption).
    lra.
Qed.

Lemma probabilities_unit (pf : list C) :
  Rsum (power_spectrum pf) <> 0 ->
  Forall (fun p => 0 <= p <= 1) (probabilities pf).
Proof.
  intros HT. pose proof (probabilities_nonneg pf HT) as Hnn.
  pose proof (Rsum_probabilities pf HT) as H1.
  apply Forall_forall. intros p Hp. split.
  - rewrite Forall_forall in Hnn. now apply Hnn.
  - rewrite <- H1. now apply Rsum_le_entry.
Qed.

(** In exact arithmetic the entropy of a field with a nonzero entry lies
    between [-ln (1 + 1e-10)] and [ln n]. *)
Lemma entropy_range_exact (phase_field : list C) :
  Exists (fun z => z <> Czero) phase_field ->
  exists h,
    compute_entanglement_entropy phase_field = Fin h
    /\ - ln (1 + log_guard) <= h <= ln (INR (length phase_field)).
Proof.
  intros Hex.
  assert (HT : Rsum (power_spectrum phase_field) <> 0).
  { intros H0. apply power_total_zero_iff in H0.
    apply Exists_exists in Hex as (w & Hw & Hnw).
    rewrite Forall_forall in H0. now apply Hnw, H0. }
  assert (Hlen : (0 < length phase_field)%nat).
  { destruct phase_field; [inversion Hex | simpl; lia]. }
  assert (HN : 0 < INR (length phase_field)) by now apply lt_0_INR.
  eexists. split; [now apply entropy_value|].
  pose proof (guarded_sum_upper _ (probabilities_unit _ HT)) as U.
  pose proof (guard_sum_bounds _ (probabilities_nonneg _ HT)) as [G _].
  pose proof (shannon_sum_bound _ _ HN (probabilities_nonneg _ HT)) as S.
  rewrite Rsum_probabilities in U, S by assumption.
  rewrite length_probabilities in S.
  assert (E : INR (length phase_field) * / INR (length phase_field) = 1)
    by (field; lra).
  split; lra.
Qed.

Lemma Cnorm2_mul (a b : C) : Cnorm2 (Cmul a b) = Cnorm2 a * Cnorm2 b.
Proof. destruct a, b. unfold Cnorm2, Cmul; simpl. ring. Qed.

Lemma sum_from_mul (z : C) (g : nat -> C) (x : list C) :
  forall j,
    sum_from j (fun j xj => Cmul xj (g j)) (map (Cmul z) x)
    = Cmul z (sum_from j (fun j xj => Cmul xj (g j)) x).
Proof.
  induction x as [|w t IH]; intros j; simpl.
  - now rewrite Cmul_0_r.
  - now rewrite IH, Cmul_add_distr_l, Cmul_assoc.
Qed.

Lemma dft_mul (z : C) (sgn : R) (x : list C) :
  dft sgn (map (Cmul z) x) = map (Cmul z) (dft sgn x).
Proof.
  unfold dft, dft_entry. rewrite length_map, map_map.
  apply map_ext. intros k. apply sum_from_mul.
Qed.

Lemma power_spectrum_mul (z : C) (pf : list C) :
  power_spectrum (map (Cmul z) pf)
  = map (Rmult (Cnorm2 z)) (power_spectrum pf).
Proof.
  unfold power_spectrum, fft. rewrite dft_mul, !abs_sq_norm2, !map_map.
  apply map_ext. intros w. apply Cnorm2_mul.
Qed.

(** In exact arithmetic a nonzero complex factor leaves the entropy
    unchanged. *)
Lemma entropy_complex_gain_exact (z : C) (phase_field : list C) :
  z <> Czero ->
  Exists (fun w => w <> Czero) phase_field ->
  compute_entanglement_entropy (map (Cmul z) phase_field)
  = compute_entanglement_entropy phase_field.
Proof.
  intros Hz Hex.
  assert (HT : Rsum (power_spectrum phase_field) <> 0).
  { intros H0. apply power_total_zero_iff in H0.
    apply Exists_exists in Hex as (w & Hw & Hnw).
    rewrite Forall_forall in H0. now apply Hnw, H0. }
  unfold compute_entanglement_entropy.
  rewrite power_spectrum_mul, normalize_scale; [reflexivity| |assumption].
  intros H0. now apply Cnorm2_zero_iff in H0.
Qed.

(** X3: [compute_quantum_foam] is homogeneous of degree two: multiplying
    the phase field by a complex number [z] multiplies every output entry
    by [|z|^2]. *)
Theorem quantum_foam_homogeneous (z : C) (phase_field : list C) :
  compute_quantum_foam (map (Cmul z) phase_field)
  = map (Rmult (Cnorm2 z)) (compute_quantum_foam phase_field).
Proof.
  unfold compute_quantum_foam, ifft.
  rewrite length_map, dft_mul, !abs_sq_norm2, !map_map.
  apply map_ext. intros w.
  rewrite <- Cnorm2_mul. f_equal. destruct z, w.
  unfold Cscale, Cmul; simpl. f_equal; ring.
Qed.

(** X1: [compute_quantum_foam] undoes the forward transform: applied to
    [fft field] it returns the squared modulus of each entry of
    [field]. *)
Theorem quantum_foam_of_fft (field : list C) :
  compute_quantum_foam (fft field) = map Cnorm2 field.
Proof.
  unfold compute_quantum_foam. now rewrite ifft_fft, abs_sq_norm2.
Qed.

(** X2: the entries of [compute_quantum_foam] add up to the energy of the
    phase field divided by its length (Parseval):
    [n * sum (foam) = sum |x_j|^2]. *)
Theorem quantum_foam_total (phase_field : list C) :
  INR (length phase_field) * Rsum (compute_quantum_foam phase_field)
  = Rsum (map Cnorm2 phase_field).
Proof.
  unfold compute_quantum_foam, ifft. rewrite abs_sq_norm2, map_map.
  rewrite (map_ext _ (fun w => (/ INR (length phase_field)
                                * / INR (length phase_field)) * Cnorm2 w))
    by (intros; apply Cnorm2_scale).
  rewrite <- (map_map Cnorm2 (Rmult _)), Rsum_scale.
  rewrite parseval by now left.
  destruct phase_field as [|z t]; [simpl; ring|].
  field. apply not_0_INR. simpl. lia.
Qed.

(** X4: whatever the projection routine returns, [wave_particle_duality]
    is its squared modulus [re^2 + im^2], a real number that is at least
    zero. *)
Theorem wave_particle_duality_nonneg (params_t : Type)
    (holographic_projection : R -> R -> params_t -> C)
    (x t : R) (params : params_t) :
  wave_particle_duality params_t holographic_projection x t params
  = Cnorm2 (holographic_projection x t params)
  /\ 0 <= wave_particle_duality params_t holographic_projection x t params.
Proof.
  unfold wave_particle_duality. rewrite Cabs_sq. split; [reflexivity|].
  apply Cnorm2_nonneg.
Qed.

Lemma sum_from_repeat (c : C) (g : nat -> C) (n : nat) :
  forall s,
    sum_from s (fun j xj => Cmul xj (g j)) (repeat c n)
    = Cmul c (Csum (map g (seq s n))).
Proof.
  induction n as [|n IH]; intros s; simpl.
  - now rewrite Cmul_0_r.
  - rewrite IH. unfold Csum. cbn [fold_right]. now rewrite Cmul_add_distr_l.
Qed.

Lemma dft_entry_const (sgn : R) (c : C) (n k : nat) :
  sgn = 1 \/ sgn = -1 -> (k < n)%nat ->
  dft_entry sgn (repeat c n) k
  = if (k =? 0)%nat then Cscale (INR n) c else Czero.
Proof.
  intros Hs Hk. unfold dft_entry. rewrite sum_from_repeat, repeat_length.
  rewrite (map_ext _ (fun j => Cexp_i (INR j * step_angle sgn n 0 k))).
  - fold (geo (step_angle sgn n 0 k) n).
    rewrite kernel_sum by (assumption || lia).
    rewrite Nat.eqb_sym.
    destruct (k =? 0)%nat; [apply Cmul_real_r | apply Cmul_0_r].
  - intros j. unfold twiddle, step_angle. f_equal. simpl INR.
    unfold Rdiv. ring.
Qed.

Lemma power_spectrum_const (c : C) (n : nat) :
  power_spectrum (repeat c (S n))
  = (INR (S n) * INR (S n) * Cnorm2 c) :: repeat 0 n.
Proof.
  unfold power_spectrum, fft, dft. rewrite abs_sq_norm2, map_map, repeat_length.
  cbn [seq map]. f_equal.
  - rewrite dft_entry_const by (try (now right); lia).
    cbn [Nat.eqb]. apply Cnorm2_scale.
  - rewrite <- (map_const_seq 0 n 1). apply map_ext_in. intros k Hk.
    apply in_seq in Hk. rewrite dft_entry_const by (try (now right); lia).
    destruct (Nat.eqb_spec k 0); [lia|]. unfold Cnorm2, Czero; simpl. ring.
Qed.

(** In exact arithmetic the entropy of a constant nonzero field of any
    length is [-ln (1 + 1e-10)]. *)
Lemma constant_field_entropy_exact (c : C) (n : nat) :
  c <> Czero ->
  compute_entanglement_entropy (repeat c (S n)) = Fin (- ln (1 + log_guard)).
Proof.
  intros Hc. pose proof log_guard_pos as He.
  assert (HN : 0 < INR (S n)) by (apply lt_0_INR; lia).
  assert (Hc2 : 0 < Cnorm2 c).
  { pose proof (Cnorm2_nonneg c).
    destruct (Req_dec_T (Cnorm2 c) 0) as [H0|]; [|lra].
    now apply Cnorm2_zero_iff in H0. }
  assert (HP : 0 < INR (S n) * INR (S n) * Cnorm2 c).
  { apply Rmult_lt_0_compat; [apply Rmult_lt_0_compat|]; assumption. }
  assert (HT : Rsum (power_spectrum (repeat c (S n)))
               = INR (S n) * INR (S n) * Cnorm2 c).
  { rewrite power_spectrum_const. cbn [Rsum fold_right].
    fold (Rsum (repeat 0 n)). rewrite Rsum_repeat. ring. }
  rewrite entropy_value by (rewrite HT; lra).
  unfold probabilities. rewrite HT, power_spectrum_const.
  cbn [map Rsum fold_right]. rewrite !map_repeat_const.
  fold (Rsum (repeat (0 / (INR (S n) * INR (S n) * Cnorm2 c)
                      * ln (0 / (INR (S n) * INR (S n) * Cnorm2 c)
                            + log_guard)) n)).
  rewrite Rsum_repeat. f_equal.
  replace (INR (S n) * INR (S n) * Cnorm2 c
           / (INR (S n) * INR (S n) * Cnorm2 c))
    with 1 by (field; lra).
  unfold Rdiv. ring.
Qed.

Lemma sum_from_app (f : nat -> C -> C) (l1 l2 : list C) :
  forall s,
    sum_from s f (l1 ++ l2)
    = Cadd (sum_from s f l1) (sum_from (s + length l1) f l2).
Proof.
  induction l1 as [|x t IH]; intros s; simpl.
  - now rewrite Cadd_0_l, Nat.add_0_r.
  - rewrite IH, Cadd_assoc. do 2 f_equal. lia.
Qed.

Lemma twiddle_succ (sgn : R) (n j k : nat) :
  twiddle sgn n (S j) k = Cmul (twiddle sgn n j k) (twiddle sgn n 1 k).
Proof.
  unfold twiddle. rewrite Cexp_i_add. f_equal. rewrite S_INR. simpl INR.
  unfold Rdiv. ring.
Qed.

Lemma sum_from_twiddle_shift (sgn : R) (n k : nat) (t : list C) :
  forall s,
    sum_from (S s) (fun j xj => Cmul xj (twiddle sgn n j k)) t
    = Cmul (twiddle sgn n 1 k)
           (sum_from s (fun j xj => Cmul xj (twiddle sgn n j k)) t).
Proof.
  induction t as [|x t IH]; intros s; simpl.
  - now rewrite Cmul_0_r.
  - rewrite IH, twiddle_succ, Cmul_add_distr_l. f_equal.
    generalize (twiddle sgn n s k) (twiddle sgn n 1 k). clear. intros. Ceq.
Qed.

Lemma twiddle_full_turn (sgn : R) (n k : nat) :
  sgn = 1 \/ sgn = -1 -> (0 < n)%nat -> twiddle sgn n n k = (1, 0).
Proof.
  intros Hs Hn. assert (Hn' : INR n <> 0) by (apply not_0_INR; lia).
  unfold twiddle, Cexp_i. destruct Hs as [-> | ->].
  - replace (1 * (2 * PI * INR n * INR k / INR n)) with (2 * PI * INR k)
      by (field; assumption).
    now rewrite cos_2PI_INR, sin_2PI_INR.
  - replace (-1 * (2 * PI * INR n * INR k / INR n)) with (- (2 * PI * INR k))
      by (field; assumption).
    now rewrite cos_neg, sin_neg, cos_2PI_INR, sin_2PI_INR, Ropp_0.
Qed.

Lemma Cnorm2_twiddle (sgn : R) (n j k : nat) : Cnorm2 (twiddle sgn n j k) = 1.
Proof.
  unfold twiddle, Cexp_i, Cnorm2; simpl.
  pose proof (sin2_cos2 (sgn * (2 * PI * INR j * INR k / INR n))) as H.
  unfold Rsqr in H. lra.
Qed.

Lemma dft_entry_rotate1 (sgn : R) (x0 : C) (t : list C) (k : nat) :
  sgn = 1 \/ sgn = -1 ->
  dft_entry sgn (x0 :: t) k
  = Cmul (twiddle sgn (S (length t)) 1 k)
         (dft_entry sgn (rotate1 (x0 :: t)) k).
Proof.
  intros Hs. unfold dft_entry, rotate1. rewrite length_app. cbn [length].
  replace (length t + 1)%nat with (S (length t)) by lia.
  set (n := S (length t)).
  assert (K : Cmul (twiddle sgn n 1 k) (Cmul x0 (twiddle sgn n (length t) k))
              = Cmul x0 (twiddle sgn n 0 k)).
  { rewrite twiddle_j0.
    transitivity (Cmul x0 (twiddle sgn n (S (length t)) k)).
    - rewrite (twiddle_succ sgn n (length t) k).
      generalize (twiddle sgn n (length t) k) (twiddle sgn n 1 k).
      clear. intros. Ceq.
    - unfold n. rewrite twiddle_full_turn by (assumption || lia). reflexivity. }
  cbn [sum_from]. rewrite sum_from_app. cbn [sum_from plus].
  rewrite sum_from_twiddle_shift, Cadd_0_r, Cmul_add_distr_l, K.
  apply Cadd_comm.
Qed.

Lemma length_rotate1 (x : list C) : length (rotate1 x) = length x.
Proof. destruct x as [|x0 t]; [reflexivity|]. simpl. rewrite length_app. simpl. lia. Qed.

(** A shift by one place leaves the modulus of every transform entry
    as it was. *)
Lemma dft_norm2_rotate1 (sgn : R) (x : list C) :
  sgn = 1 \/ sgn = -1 ->
  map Cnorm2 (dft sgn (rotate1 x)) = map Cnorm2 (dft sgn x).
Proof.
  intros Hs. destruct x as [|x0 t]; [reflexivity|].
  unfold dft. rewrite !map_map, length_rotate1.
  apply map_ext. intros k.
  rewrite (dft_entry_rotate1 sgn x0 t k Hs), Cnorm2_mul, Cnorm2_twiddle. ring.
Qed.

Lemma power_spectrum_rotate1 (phase_field : list C) :
  power_spectrum (rotate1 phase_field) = power_spectrum phase_field.
Proof.
  unfold power_spectrum, fft. rewrite !abs_sq_norm2.
  apply dft_norm2_rotate1. now right.
Qed.

Lemma quantum_foam_rotate1 (phase_field : list C) :
  compute_quantum_foam (rotate1 phase_field)
  = compute_quantum_foam phase_field.
Proof.
  unfold compute_quantum_foam, ifft. rewrite !abs_sq_norm2, !map_map.
  rewrite length_rotate1.
  rewrite !(map_ext (fun z => Cnorm2 (Cscale (/ INR (length phase_field)) z))
                    (fun z => / INR (length phase_field)
                              * / INR (length phase_field) * Cnorm2 z))
    by (intros; apply Cnorm2_scale).
  rewrite <- !(map_map Cnorm2 (Rmult _)).
  f_equal. apply dft_norm2_rotate1. now left.
Qed.

(** X17: a circular shift of the phase field by any number of places
    leaves every entry of [compute_quantum_foam] as it was. *)
Theorem quantum_foam_shift_invariant (s : nat) (phase_field : list C) :
  compute_quantum_foam (rotate s phase_field)
  = compute_quantum_foam phase_field.
Proof.
  induction s as [|s IH]; [reflexivity|].
  cbn [rotate]. now rewrite quantum_foam_rotate1.
Qed.

(** X8: a circular shift of the phase field by any number of places
    changes neither the power spectrum nor the entropy. *)
Theorem entropy_shift_invariant (s : nat) (phase_field : list C) :
  power_spectrum (rotate s phase_field) = power_spectrum phase_field
  /\ compute_entanglement_entropy (rotate s phase_field)
     = compute_entanglement_entropy phase_field.
Proof.
  assert (E : power_spectrum (rotate s phase_field)
              = power_spectrum phase_field).
  { induction s as [|s IH]; [reflexivity|].
    cbn [rotate]. now rewrite power_spectrum_rotate1. }
  split; [exact E|].
  unfold compute_entanglement_entropy. now rewrite E.
Qed.

(** ** compute_mqp, further *)







(** Entry [i] of the array [compute_mqp] returns. *)
Lemma compute_mqp_entry (d lap : list R) (hbar mass : R) :
  (g <- gradient d ;; gradient g) = Ok lap ->
  exists r,
    compute_mqp d hbar mass = Ok r
    /\ length r = length d
    /\ forall i, (i < length d)%nat ->
         nth i r NaN
         = fmul (fneg (fdiv (Fin (hbar ^ 2)) (Fin (2 * mass))))
                (fdiv (Fin (nth i lap 0)) (Fin (nth i d 0))).
Proof.
  intros El. rewrite compute_mqp_unfold, El. cbn [bind].
  assert (Ll : length lap = length d).
  { destruct (gradient d) as [g|] eqn:Eg; [|discriminate].
    cbn [bind] in El. apply gradient_length in El as [L1 _].
    apply gradient_length in Eg as [L2 _]. lia. }
  eexists. split; [reflexivity|]. split.
  - rewrite length_map, length_zip_with, !length_map. lia.
  - intros i Hi.
    set (coef := fneg (fdiv (Fin (hbar ^ 2)) (Fin (2 * mass)))).
    rewrite (nth_indep _ NaN (fmul coef (Fin 0)))
      by (rewrite length_map, length_zip_with, !length_map; lia).
    rewrite map_nth.
    rewrite (nth_zip_with fdiv _ _ i (Fin 0) (Fin 0))
      by (rewrite length_map; lia).
    now rewrite !(map_nth Fin).
Qed.


(** X11: [compute_mqp] raises exactly on arrays of fewer than two
    entries, and then a [ValueError]; on every other array it returns an
    array of the input's length, whatever [hbar] and [mass] are. *)
Theorem compute_mqp_outcome (density_field : list R) (hbar mass : R) :
  (compute_mqp density_field hbar mass = Raise ValueError
   <-> (length density_field < 2)%nat)
  /\ (forall e, compute_mqp density_field hbar mass = Raise e ->
                e = ValueError)
  /\ (forall r, compute_mqp density_field hbar mass = Ok r ->
                length r = length density_field
                /\ (2 <= length density_field)%nat).
Proof.
  destruct (Nat.ltb_spec (length density_field) 2) as [Hlt|Hge].
  - assert (E : compute_mqp density_field hbar mass = Raise ValueError).
    { unfold compute_mqp. now rewrite gradient_short. }
    rewrite E. split; [split; [intros _; assumption | reflexivity]|]. split.
    + intros e He. congruence.
    + intros r Hr. discriminate.
  - destruct (laplacian_ok _ Hge) as (lap & El & _).
    destruct (compute_mqp_entry _ _ hbar mass El) as (r & E & Lr & _).
    rewrite E. split; [split; [discriminate | lia]|]. split.
    + intros e He. discriminate.
    + intros r' Hr. injection Hr as <-. split; [exact Lr | exact Hge].
Qed.

Lemma fmul_nonfinite_l (a b : fval) : ~ finite a -> ~ finite (fmul a b).
Proof. destruct a, b; simpl; auto; intros _; case_sign. Qed.

(** X13: a zero mass is not rejected: on an array of two entries or more
    the call returns an array of the input's length in which no entry is
    finite. *)
Theorem compute_mqp_zero_mass (density_field : list R) (hbar : R) :
  (2 <= length density_field)%nat ->
  exists r,
    compute_mqp density_field hbar 0 = Ok r
    /\ length r = length density_field
    /\ Forall (fun v => ~ finite v) r.
Proof.
  intros Hlen. destruct (laplacian_ok _ Hlen) as (lap & El & _).
  destruct (compute_mqp_entry _ _ hbar 0 El) as (r & E & Lr & Hr).
  exists r. split; [exact E|]. split; [exact Lr|].
  apply Forall_forall. intros v Hv.
  apply (In_nth _ _ NaN) in Hv as (i & Hi & <-).
  rewrite Hr by lia. apply fmul_nonfinite_l.
  replace (2 * 0) with 0 by ring.
  generalize (fdiv_by_zero_nonfinite (hbar ^ 2)).
  destruct (fdiv (Fin (hbar ^ 2)) (Fin 0)); simpl; auto.
Qed.

Lemma compute_mqp_zero_mass_witness :
  exists r,
    compute_mqp [1; 2] 1 0 = Ok r
    /\ length r = length [1; 2]
    /\ Forall (fun v => ~ finite v) r.
Proof. apply (compute_mqp_zero_mass [1; 2] 1). simpl. lia. Defined.












(** * The range of binary32 *)

Lemma float_max_pos : 0 < float_max.
Proof. unfold float_max. lra. Qed.

Lemma float_min_pos : 0 < float_min_normal.
Proof. unfold float_min_normal. apply Rinv_0_lt_compat. lra. Qed.

Lemma to_float_in (x : R) : Rabs x <= float_max -> to_float x = Fin x.
Proof. intros H. unfold to_float. destruct (Rlt_dec float_max (Rabs x)); [lra | reflexivity]. Qed.

Lemma to_float_over (x : R) : float_max < x -> to_float x = PInf.
Proof.
  intros H. pose proof float_max_pos. unfold to_float.
  rewrite Rabs_right by lra.
  destruct (Rlt_dec float_max x); [|lra].
  unfold inf_of_sign. destruct (Rlt_dec 0 x); [reflexivity | lra].
Qed.

Lemma to_float_nonneg (x : R) : 0 <= x -> x <= float_max -> to_float x = Fin x.
Proof. intros H0 H1. apply to_float_in. rewrite Rabs_right; lra. Qed.

Lemma fsum32_Fin (l : list R) :
  Forall (fun s => 0 <= s) l -> Rsum l <= float_max ->
  fsum32 (map Fin l) = Fin (Rsum l).
Proof.
  induction 1 as [|s t Hs Ht IH]; intros Hle; [reflexivity|].
  cbn [map fsum32 fold_right Rsum] in *. fold (fsum32 (map Fin t)).
  fold (Rsum t) in *. pose proof (Rsum_nonneg t Ht).
  rewrite IH by lra. unfold fadd32. cbn [fadd ranged].
  apply to_float_nonneg; lra.
Qed.

Lemma power_spectrum_f32_in (pf : list C) :
  Rsum (power_spectrum pf) <= float_max ->
  power_spectrum_f32 pf = map Fin (power_spectrum pf).
Proof.
  intros HT. unfold power_spectrum_f32, power_spectrum, abs_sq in *.
  rewrite map_map. apply map_ext_in. intros z Hz.
  apply to_float_nonneg.
  - rewrite Cabs_sq. apply Cnorm2_nonneg.
  - eapply Rle_trans; [|exact HT].
    apply Rsum_le_entry.
    + apply (abs_sq_nonneg (fft pf)).
    + apply in_map_iff. now exists z.
Qed.

Lemma Rsum_abs_le (l : list R) : Rabs (Rsum l) <= Rsum (map Rabs l).
Proof.
  induction l as [|x t IH]; cbn [map Rsum fold_right].
  - rewrite Rabs_R0. lra.
  - fold (Rsum t). fold (Rsum (map Rabs t)).
    eapply Rle_trans; [apply Rabs_triang | lra].
Qed.

Lemma fsum32_Fin_abs (l : list R) :
  Rsum (map Rabs l) <= float_max -> fsum32 (map Fin l) = Fin (Rsum l).
Proof.
  induction l as [|x t IH]; intros Hle; [reflexivity|].
  cbn [map fsum32 fold_right Rsum] in *. fold (fsum32 (map Fin t)).
  fold (Rsum t). fold (Rsum (map Rabs t)) in Hle.
  pose proof (Rabs_pos x).
  assert (Ht : 0 <= Rsum (map Rabs t)).
  { apply Rsum_nonneg. rewrite Forall_map. apply Forall_forall.
    intros y _. apply Rabs_pos. }
  rewrite IH by lra. unfold fadd32. cbn [fadd ranged].
  apply to_float_in.
  pose proof (Rsum_abs_le (x :: t)) as B. cbn [map Rsum fold_right] in B.
  fold (Rsum t) in B. fold (Rsum (map Rabs t)) in B. lra.
Qed.

(** The logarithm of a guarded probability is a moderate number. *)
Lemma ln_guarded_bound (p : R) :
  0 <= p <= 1 -> Rabs (ln (p + log_guard)) <= 10000000000.
Proof.
  intros [H0 H1]. pose proof log_guard_pos as He.
  assert (Hup : ln (p + log_guard) <= 1).
  { pose proof (ln_le_minus_1 (p + log_guard)). unfold log_guard in *. lra. }
  assert (Hlo : - 10000000000 <= ln (p + log_guard)).
  { assert (L : ln log_guard <= ln (p + log_guard))
      by (apply ln_mono_le; lra).
    assert (E : ln log_guard = - ln 10000000000).
    { unfold log_guard. rewrite <- ln_Rinv by lra. f_equal. lra. }
    pose proof (ln_le_minus_1 10000000000). lra. }
  apply Rabs_le. lra.
Qed.

Lemma guarded_term_f32 (p : R) :
  0 <= p <= 1 ->
  fmul32 (Fin p) (flog32 (fadd32 (Fin p) (Fin log_guard)))
  = Fin (p * ln (p + log_guard)).
Proof.
  intros Hp. pose proof log_guard_pos as He. pose proof (ln_guarded_bound p Hp) as B.
  assert (HM : 10000000000 <= float_max) by (unfold float_max; lra).
  unfold fadd32. cbn [fadd ranged].
  rewrite to_float_nonneg by (unfold log_guard in *; unfold float_max; lra).
  unfold flog32. rewrite flog_pos by lra. cbn [ranged].
  rewrite to_float_in by lra.
  unfold fmul32. cbn [fmul ranged]. apply to_float_in.
  rewrite Rabs_mult, (Rabs_right p) by lra.
  pose proof (Rabs_pos (ln (p + log_guard))). nra.
Qed.

Lemma guarded_terms_abs (l : list R) :
  Forall (fun p => 0 <= p <= 1) l ->
  Rsum (map Rabs (map (fun p => p * ln (p + log_guard)) l))
  <= Rsum l * 10000000000.
Proof.
  induction 1 as [|p t Hp _ IH]; cbn [map Rsum fold_right].
  - lra.
  - fold (Rsum t).
    fold (Rsum (map Rabs (map (fun p => p * ln (p + log_guard)) t))).
    pose proof (ln_guarded_bound p Hp) as B.
    rewrite Rabs_mult, (Rabs_right p) by lra.
    pose proof (Rabs_pos (ln (p + log_guard))). nra.
Qed.

Lemma normalize_f32_in (pf : list C) :
  Rsum (power_spectrum pf) <= float_max ->
  Rsum (power_spectrum pf) <> 0 ->
  normalize_f32 (power_spectrum_f32 pf) = map Fin (probabilities pf).
Proof.
  intros HT Hnz. rewrite power_spectrum_f32_in by assumption.
  unfold normalize_f32. rewrite fsum32_Fin by (apply abs_sq_nonneg || assumption).
  unfold probabilities. rewrite !map_map. apply map_ext_in. intros s Hs.
  unfold fdiv32. rewrite fdiv_fin by assumption. cbn [ranged].
  apply to_float_nonneg.
  - pose proof (probabilities_nonneg pf Hnz) as Hall.
    rewrite Forall_forall in Hall. apply Hall.
    unfold probabilities. apply in_map_iff. now exists s.
  - pose proof (probabilities_unit pf Hnz) as Hall.
    rewrite Forall_forall in Hall.
    assert (Hin : In (s / Rsum (power_spectrum pf)) (probabilities pf)).
    { unfold probabilities. apply in_map_iff. now exists s. }
    specialize (Hall _ Hin). unfold float_max. lra.
Qed.

Lemma entropy_f32_value (pf : list C) :
  Rsum (power_spectrum pf) <= float_max ->
  Rsum (power_spectrum pf) <> 0 ->
  compute_entanglement_entropy_f32 pf
  = Fin (- Rsum (map (fun p => p * ln (p + log_guard)) (probabilities pf))).
Proof.
  intros HT Hnz. unfold compute_entanglement_entropy_f32.
  rewrite normalize_f32_in, map_map by assumption.
  pose proof (probabilities_unit pf Hnz) as Hu.
  rewrite (map_ext_in _ (fun p => Fin (p * ln (p + log_guard)))).
  - rewrite <- (map_map (fun p => p * ln (p + log_guard)) Fin).
    rewrite fsum32_Fin_abs; [reflexivity|].
    eapply Rle_trans; [apply guarded_terms_abs, Hu|].
    rewrite Rsum_probabilities by assumption. unfold float_max. lra.
  - intros p Hp. apply guarded_term_f32.
    rewrite Forall_forall in Hu. now apply Hu.
Qed.

Lemma normalize_f32_zero_total (pf : list C) :
  Rsum (power_spectrum pf) = 0 ->
  normalize_f32 (power_spectrum_f32 pf)
  = map (fun _ => NaN) (power_spectrum pf).
Proof.
  intros H0. pose proof float_max_pos as HM.
  rewrite power_spectrum_f32_in by lra.
  unfold normalize_f32.
  rewrite fsum32_Fin by (apply abs_sq_nonneg || lra). rewrite H0, map_map.
  pose proof (Rsum_zero_all _ (abs_sq_nonneg (fft pf)) H0) as Hz.
  fold (power_spectrum pf) in Hz.
  apply map_ext_in. intros s Hs. rewrite Forall_forall in Hz.
  rewrite (Hz s Hs). unfold fdiv32. now rewrite fdiv_zero_zero.
Qed.

Lemma entropy_f32_zero_field (pf : list C) :
  pf <> [] -> Forall (fun z => z = Czero) pf ->
  compute_entanglement_entropy_f32 pf = NaN.
Proof.
  intros Hne Hall.
  assert (H0 : Rsum (power_spectrum pf) = 0) by now apply power_total_zero_iff.
  unfold compute_entanglement_entropy_f32.
  rewrite normalize_f32_zero_total, map_map by assumption.
  assert (Hl : power_spectrum pf <> []).
  { intros E. apply Hne. apply length_zero_iff_nil.
    rewrite <- length_power_spectrum, E. reflexivity. }
  destruct (power_spectrum pf) as [|s t]; [congruence|]. reflexivity.
Qed.

Lemma entropy_f32_exact (pf : list C) :
  Rsum (power_spectrum pf) <= float_max ->
  compute_entanglement_entropy_f32 pf = compute_entanglement_entropy pf.
Proof.
  intros HT. destruct (Req_dec_T (Rsum (power_spectrum pf)) 0) as [H0|Hnz].
  - destruct pf as [|z t]; [reflexivity|].
    rewrite entropy_f32_zero_field, entropy_zero_total;
      try discriminate; try assumption; try reflexivity.
    now apply power_total_zero_iff.
  - now rewrite entropy_f32_value, entropy_value.
Qed.

Lemma to_float_power (x : R) : 0 <= x -> power_value (to_float x).
Proof.
  intros Hx. unfold to_float, inf_of_sign.
  destruct (Rlt_dec float_max (Rabs x)); [|exact Hx].
  destruct (Rlt_dec 0 x); [exact I|].
  assert (x = 0) by lra. subst. rewrite Rabs_R0 in *.
  pose proof float_max_pos. lra.
Qed.

Lemma fadd32_power (a b : fval) :
  power_value a -> power_value b -> power_value (fadd32 a b).
Proof.
  destruct a as [x| | |], b as [y| | |]; simpl; try contradiction; auto.
  intros Hx Hy. apply to_float_power. lra.
Qed.

Lemma fsum32_power (l : list fval) :
  Forall power_value l -> power_value (fsum32 l).
Proof.
  induction 1 as [|v t Hv _ IH]; cbn [fsum32 fold_right].
  - simpl. lra.
  - now apply fadd32_power.
Qed.

Lemma fadd32_pinf_l (b : fval) : power_value b -> fadd32 PInf b = PInf.
Proof. destruct b; simpl; try contradiction; reflexivity. Qed.

Lemma fadd32_pinf_r (a : fval) : power_value a -> fadd32 a PInf = PInf.
Proof. destruct a; simpl; try contradiction; reflexivity. Qed.

Lemma fsum32_overflow (l : list fval) :
  Forall power_value l -> In PInf l -> fsum32 l = PInf.
Proof.
  induction 1 as [|v t Hv Ht IH]; intros Hin; [contradiction|].
  cbn [fsum32 fold_right]. fold (fsum32 t).
  destruct Hin as [->|Hin].
  - apply fadd32_pinf_l. now apply fsum32_power.
  - rewrite IH by assumption. now apply fadd32_pinf_r.
Qed.

Lemma fadd32_nan_l (b : fval) : fadd32 NaN b = NaN.
Proof. reflexivity. Qed.

Lemma fadd32_nan_r (a : fval) : fadd32 a NaN = NaN.
Proof. destruct a; reflexivity. Qed.

Lemma fsum32_nan (l : list fval) : In NaN l -> fsum32 l = NaN.
Proof.
  induction l as [|v t IH]; intros Hin; [contradiction|].
  cbn [fsum32 fold_right]. fold (fsum32 t).
  destruct Hin as [->|Hin]; [apply fadd32_nan_l|].
  rewrite IH by assumption. apply fadd32_nan_r.
Qed.

Lemma power_spectrum_f32_map (pf : list C) :
  power_spectrum_f32 pf = map to_float (power_spectrum pf).
Proof.
  unfold power_spectrum_f32, power_spectrum, abs_sq. now rewrite map_map.
Qed.

Lemma power_spectrum_f32_values (pf : list C) :
  Forall power_value (power_spectrum_f32 pf).
Proof.
  rewrite power_spectrum_f32_map, Forall_map.
  eapply Forall_impl; [|apply (abs_sq_nonneg (fft pf))].
  intros s Hs. now apply to_float_power.
Qed.

(** One spectral power beyond the float range makes the entropy NaN. *)
Lemma entropy_f32_overflow (pf : list C) :
  Exists (fun s => float_max < s) (power_spectrum pf) ->
  compute_entanglement_entropy_f32 pf = NaN.
Proof.
  intros Hex. apply Exists_exists in Hex as (s & Hs & Hbig).
  assert (Hin : In PInf (power_spectrum_f32 pf)).
  { rewrite power_spectrum_f32_map. apply in_map_iff.
    exists s. split; [now apply to_float_over | assumption]. }
  assert (HT : fsum32 (power_spectrum_f32 pf) = PInf)
    by (apply fsum32_overflow; [apply power_spectrum_f32_values | assumption]).
  unfold compute_entanglement_entropy_f32.
  assert (E : forall l : list fval, In NaN l -> fneg (fsum32 l) = NaN)
    by (intros l Hl; now rewrite fsum32_nan).
  apply E. apply in_map_iff. exists NaN. split; [reflexivity|].
  unfold normalize_f32. rewrite HT. apply in_map_iff.
  exists PInf. split; [reflexivity | assumption].
Qed.

Lemma well_scaled_total (pf : list C) :
  well_scaled pf -> pf <> [] ->
  Rsum (power_spectrum pf) <= float_max /\ Rsum (power_spectrum pf) <> 0.
Proof.
  intros [Hlo Hhi] Hne. pose proof float_max_pos. pose proof float_min_pos.
  split; [lra|].
  assert (Hn : 0 < INR (length pf)).
  { apply lt_0_INR. destruct pf; [congruence | simpl; lia]. }
  nra.
Qed.



Lemma nonzero_total_exists (pf : list C) :
  Rsum (power_spectrum pf) <> 0 -> Exists (fun z => z <> Czero) pf.
Proof.
  intros HT. apply neg_Forall_Exists_neg.
  - intros [a b]. unfold Czero.
    destruct (Req_dec_T a 0) as [->|Ha]; [|right; congruence].
    destruct (Req_dec_T b 0) as [->|Hb]; [now left | right; congruence].
  - intros Hall. now apply power_total_zero_iff in Hall.
Qed.

Lemma well_scaled_ones : well_scaled ones.
Proof.
  unfold well_scaled. rewrite power_spectrum_ones.
  unfold float_min_normal, float_max. simpl. lra.
Qed.





Lemma power_spectrum_scaled_ones (c : R) :
  power_spectrum (map (Cscale c) ones) = [c * c * 4; c * c * 0].
Proof. now rewrite power_spectrum_scale, power_spectrum_ones. Qed.

(** C10 (as stated, refuted): [c = 1e20] is not zero and the power
    spectrum of [[1, 1]] has a nonzero total, yet the entropy of
    [1e20 * [1, 1]] is NaN (the spectral power [4e40] overflows binary32)
    while the entropy of [[1, 1]] is finite. *)
Lemma entropy_scale_overflow_counter :
  (1e20 <> 0 /\ Rsum (power_spectrum ones) <> 0)
  /\ compute_entanglement_entropy_f32 (map (Cscale 1e20) ones) = NaN
  /\ finite (compute_entanglement_entropy_f32 ones)
  /\ compute_entanglement_entropy_f32 (map (Cscale 1e20) ones)
     <> compute_entanglement_entropy_f32 ones.
Proof.
  assert (HN : compute_entanglement_entropy_f32 (map (Cscale 1e20) ones) = NaN).
  { apply entropy_f32_overflow. rewrite power_spectrum_scaled_ones.
    left. unfold float_max. lra. }
  assert (HF : exists h, compute_entanglement_entropy_f32 ones = Fin h).
  { eexists. apply entropy_f32_value.
    - rewrite power_spectrum_ones. unfold float_max. simpl. lra.
    - apply power_ones_nonzero. }
  destruct HF as [h HF].
  split; [split; [lra | apply power_ones_nonzero]|].
  split; [exact HN|]. rewrite HN, HF.
  split; [exact I | discriminate].
Qed.

(** C10 (amended): for every real [c] other than zero and every phase
    field such that the total spectral power of both the field and the
    rescaled field lies within the normal range of binary32, rescaling by
    [c] leaves [compute_entanglement_entropy] unchanged (up to
    rounding). *)
Theorem entropy_scale_invariant (c : R) (phase_field : list C) :
  c <> 0 ->
  well_scaled phase_field ->
  well_scaled (map (Cscale c) phase_field) ->
  compute_entanglement_entropy_f32 (map (Cscale c) phase_field)
  = compute_entanglement_entropy_f32 phase_field.
Proof.
  intros Hc Hws Hws'. destruct phase_field as [|z t]; [reflexivity|].
  destruct (well_scaled_total _ Hws) as [HT Hnz]; [discriminate|].
  destruct (well_scaled_total _ Hws') as [HT' _]; [discriminate|].
  rewrite !entropy_f32_exact by assumption.
  now apply entropy_scale_exact.
Qed.

Lemma well_scaled_twice_ones : well_scaled (map (Cscale 2) ones).
Proof.
  unfold well_scaled. rewrite power_spectrum_scaled_ones.
  unfold float_min_normal, float_max. simpl. lra.
Qed.

Lemma entropy_scale_invariant_witness :
  compute_entanglement_entropy_f32 (map (Cscale 2) ones)
  = compute_entanglement_entropy_f32 ones.
Proof.
  apply (entropy_scale_invariant 2 ones).
  - lra.
  - apply well_scaled_ones.
  - apply well_scaled_twice_ones.
Defined.

(** X5: [compute_entanglement_entropy] returns NaN on every non-empty
    phase field all of whose entries are zero, and on every phase field
    one of whose spectral powers exceeds the largest binary32 number; it
    returns a finite number on every non-empty phase field whose total
    spectral power lies within the normal range of binary32. *)
Theorem entropy_nan_causes (phase_field : list C) :
  (phase_field <> [] -> Forall (fun z => z = Czero) phase_field ->
   compute_entanglement_entropy_f32 phase_field = NaN)
  /\ (Exists (fun s => float_max < s) (power_spectrum phase_field) ->
      compute_entanglement_entropy_f32 phase_field = NaN)
  /\ (well_scaled phase_field -> phase_field <> [] ->
      finite (compute_entanglement_entropy_f32 phase_field)).
Proof.
  split; [apply entropy_f32_zero_field|].
  split; [apply entropy_f32_overflow|].
  intros Hws Hne. destruct (well_scaled_total _ Hws Hne) as [HT Hnz].
  rewrite entropy_f32_value by assumption. exact I.
Qed.

Lemma entropy_nan_causes_witness :
  compute_entanglement_entropy_f32 zeros = NaN
  /\ compute_entanglement_entropy_f32 (map (Cscale 1e20) ones) = NaN
  /\ finite (compute_entanglement_entropy_f32 ones).
Proof.
  split; [|split].
  - destruct (entropy_nan_causes zeros) as (H & _ & _).
    apply H; [discriminate | repeat constructor].
  - destruct (entropy_nan_causes (map (Cscale 1e20) ones)) as (_ & H & _).
    apply H. rewrite power_spectrum_scaled_ones. left. unfold float_max. lra.
  - destruct (entropy_nan_causes ones) as (_ & _ & H).
    apply H; [apply well_scaled_ones | discriminate].
Defined.

(** X6: on a non-empty phase field whose total spectral power lies within
    the normal range of binary32 the entropy is a finite number between
    [-ln (1 + 1e-10)] and [ln n] (up to rounding), where [n] is the
    number of entries. *)
Theorem entropy_range (phase_field : list C) :
  well_scaled phase_field -> phase_field <> [] ->
  exists h,
    compute_entanglement_entropy_f32 phase_field = Fin h
    /\ - ln (1 + log_guard) <= h <= ln (INR (length phase_field)).
Proof.
  intros Hws Hne. destruct (well_scaled_total _ Hws Hne) as [HT Hnz].
  rewrite entropy_f32_exact by assumption.
  apply entropy_range_exact. now apply nonzero_total_exists.
Qed.

Lemma entropy_range_witness :
  exists h,
    compute_entanglement_entropy_f32 ones = Fin h
    /\ - ln (1 + log_guard) <= h <= ln (INR (length ones)).
Proof.
  apply (entropy_range ones); [apply well_scaled_ones | discriminate].
Defined.

(** X7: multiplying a phase field by a nonzero complex number (a gain and
    a global phase) leaves the entropy unchanged (up to rounding),
    provided the total spectral power of the field and of the product
    both lie within the normal range of binary32. *)
Theorem entropy_complex_gain_invariant (z : C) (phase_field : list C) :
  z <> Czero ->
  well_scaled phase_field ->
  well_scaled (map (Cmul z) phase_field) ->
  compute_entanglement_entropy_f32 (map (Cmul z) phase_field)
  = compute_entanglement_entropy_f32 phase_field.
Proof.
  intros Hz Hws Hws'. destruct phase_field as [|w t]; [reflexivity|].
  destruct (well_scaled_total _ Hws) as [HT Hnz]; [discriminate|].
  destruct (well_scaled_total _ Hws') as [HT' _]; [discriminate|].
  rewrite !entropy_f32_exact by assumption.
  apply entropy_complex_gain_exact; [assumption|].
  now apply nonzero_total_exists.
Qed.

Lemma entropy_complex_gain_invariant_witness :
  compute_entanglement_entropy_f32 (map (Cmul (0, 1)) ones)
  = compute_entanglement_entropy_f32 ones.
Proof.
  apply (entropy_complex_gain_invariant (0, 1) ones).
  - unfold Czero. intros H. injection H as H. lra.
  - apply well_scaled_ones.
  - unfold well_scaled. rewrite power_spectrum_mul, power_spectrum_ones.
    unfold float_min_normal, float_max, Cnorm2. simpl. lra.
Defined.

(** X9: on a constant nonzero phase field of any length whose total
    spectral power lies within the normal range of binary32 the entropy
    is [-ln (1 + 1e-10)]: zero up to the guard, whatever the length and
    the amplitude. *)
Theorem constant_field_entropy (c : C) (n : nat) :
  c <> Czero ->
  well_scaled (repeat c (S n)) ->
  compute_entanglement_entropy_f32 (repeat c (S n))
  = Fin (- ln (1 + log_guard)).
Proof.
  intros Hc Hws.
  destruct (well_scaled_total _ Hws) as [HT _]; [discriminate|].
  rewrite entropy_f32_exact by assumption.
  now apply constant_field_entropy_exact.
Qed.

Lemma constant_field_entropy_witness :
  compute_entanglement_entropy_f32 (repeat (RtoC 1) 2)
  = Fin (- ln (1 + log_guard)).
Proof.
  apply (constant_field_entropy (RtoC 1) 1).
  - unfold RtoC, Czero. intros H. injection H as H. lra.
  - apply well_scaled_ones.
Defined.
